(** * Renewer: the secret-renewal watchdog of [api/renewer.go]

    A shallow embedding of [NewRenewer], [Stop], [Renew], [renewAuth] and
    [renewLease].  Durations are Go's [time.Duration]: signed 64-bit
    nanosecond counts, kept in [Z] with the wrap-around of [int64]
    arithmetic written out.  Channels are records of a capacity, a buffer
    and a closed flag.  The background goroutine is a small machine whose
    program counter stops at the places where the Go code can be observed
    or can wait: the cancellation check at the top of the loop, the moment
    between that check and the remote call, the remote call, the final
    [select], and the send on [doneCh]. *)

From Stdlib Require Import ZArith String List Bool Lia.
Import ListNotations.
Open Scope Z_scope.

(** ** [time.Duration] *)

Module time.

Definition Duration := Z.

(** Reduction of an integer to the [int64] range (two's complement). *)
Definition wrap (z : Z) : Z := (z + 2 ^ 63) mod 2 ^ 64 - 2 ^ 63.

Definition Nanosecond : Duration := 1.
Definition Second : Duration := 1000000000 * Nanosecond.

(** [time.Duration(n)] for an [int] n (64-bit targets). *)
Definition of_int (n : Z) : Duration := wrap n.

(** [a * b] on [int64]. *)
Definition mul (a b : Duration) : Duration := wrap (a * b).

(** [a / b] on [int64]: Go truncates toward zero. *)
Definition div (a b : Duration) : Duration := wrap (Z.quot a b).

End time.

(** ** Errors *)

(** Go's [error] values that the renewer can see: its four package-level
    sentinels, and whatever error the remote client hands back. *)
Inductive error : Type :=
| ErrRenewerMissingInput
| ErrRenewerMissingSecret
| ErrRenewerNotRenewable
| ErrRenewerNoSecretData
| ErrRemote (msg : string).

(** [DefaultRenewerGrace = 15 * time.Second] *)
Definition DefaultRenewerGrace : time.Duration := time.mul 15 time.Second.

(** ** The credential *)

(** Modelled from the spec: the type [SecretAuth] is declared outside
    [renewer.go]; the fields are the three that [renewAuth] reads
    (a renewable flag, an opaque token string, a lease duration in
    seconds, a Go [int]). *)
Module SecretAuth.
Record t : Type := mk {
  ClientToken : string;
  Renewable : bool;
  LeaseDuration : Z
}.
End SecretAuth.

(** Modelled from the spec: the type [Secret] is declared outside
    [renewer.go]; the fields are those that [Renew] and [renewLease] read
    (a lease identifier, a lease duration in seconds, a renewable flag),
    and [Auth], a pointer that is nil for a leased secret. *)
Module Secret.
Record t : Type := mk {
  LeaseID : string;
  LeaseDuration : Z;
  Renewable : bool;
  Auth : option SecretAuth.t
}.
End Secret.

(** Modelled from the spec: the type [Client] is declared outside
    [renewer.go].  The renewer only stores the handle and issues its two
    remote operations through it; the handle is kept as an opaque
    address. *)
Record Client : Type := mkClient { addr : string }.

(** What one remote call returns: Go's pair of a [Secret] pointer and an [error]. *)
Record CallResult : Type := mkCallResult {
  renewal : option Secret.t;
  err : option error
}.

(** ** Channels *)

Section Chan.
Context {A : Type}.

Record chan : Type := mkchan {
  cap : nat;
  buf : list A;
  closed : bool
}.

(** [make(chan A, n)] *)
Definition make (n : nat) : chan := mkchan n [] false.

(** [close(ch)]: closing a closed channel panics ([None]). *)
Definition chan_close (ch : chan) : option chan :=
  if closed ch then None else Some (mkchan (cap ch) (buf ch) true).

(** [select { case ch <- x: ; default: }]: [None] is the panic of a send
    on a closed channel; the flag tells whether [x] was taken. *)
Definition chan_try_send (ch : chan) (x : A) : option (chan * bool) :=
  if closed ch then None
  else if (length (buf ch) <? cap ch)%nat
       then Some (mkchan (cap ch) (buf ch ++ [x]) false, true)
       else Some (ch, false).

(** A receive that is ready now: a buffered value is taken, a closed and
    drained channel yields the zero value; [None] when the receive would
    have to wait. *)
Definition chan_try_recv (ch : chan) : option chan :=
  match buf ch with
  | _ :: rest => Some (mkchan (cap ch) rest (closed ch))
  | [] => if closed ch then Some ch else None
  end.

End Chan.
Arguments chan A : clear implicits.

(** ** The renewer *)

Module RenewerInput.
Record t : Type := mk {
  Secret : option Secret.t;
  Grace : time.Duration
}.
End RenewerInput.

(** The struct [Renewer].  Its embedded [sync.Mutex] is the atomicity of
    [Stop] in the machine below. *)
Module Renewer.
Record t : Type := mk {
  client : Client;
  secret : Secret.t;
  grace : time.Duration;
  doneCh : chan (option error);
  tickCh : chan unit;
  stopped : bool;
  stopCh : chan unit
}.

Definition with_doneCh (r : t) (ch : chan (option error)) : t :=
  mk (client r) (secret r) (grace r) ch (tickCh r) (stopped r) (stopCh r).

Definition with_tickCh (r : t) (ch : chan unit) : t :=
  mk (client r) (secret r) (grace r) (doneCh r) ch (stopped r) (stopCh r).

Definition with_stop (r : t) (b : bool) (ch : chan unit) : t :=
  mk (client r) (secret r) (grace r) (doneCh r) (tickCh r) b ch.
End Renewer.

(** [NewRenewer] returns Go's pair of a [Renewer] pointer and an [error]. *)
Definition NewRenewer (c : Client) (i : option RenewerInput.t)
  : option Renewer.t * option error :=
  match i with
  | None => (None, Some ErrRenewerMissingInput)
  | Some i =>
    match RenewerInput.Secret i with
    | None => (None, Some ErrRenewerMissingSecret)
    | Some secret =>
      let grace :=
        if RenewerInput.Grace i =? 0 then DefaultRenewerGrace
        else RenewerInput.Grace i in
      (Some (Renewer.mk c secret grace (make 1) (make 5) false (make 1)),
       None)
    end
  end.

(** [DoneCh] and [TickCh] hand out the channels receive-only. *)
Definition DoneCh (r : Renewer.t) : chan (option error) := Renewer.doneCh r.
Definition TickCh (r : Renewer.t) : chan unit := Renewer.tickCh r.

(** ** What an execution leaves behind *)

Inductive Event : Type :=
| EvRenewTokenAsSelf (token : string) (increment : Z)
| EvSysRenew (leaseID : string) (increment : Z)
| EvTick (taken : bool)
| EvAfter (d : time.Duration)
| EvCloseStopCh
| EvDone (outcome : option error).

Definition is_call (e : Event) : bool :=
  match e with
  | EvRenewTokenAsSelf _ _ | EvSysRenew _ _ => true
  | _ => false
  end.

Definition is_tick (e : Event) : bool :=
  match e with EvTick _ => true | _ => false end.

Definition is_close (e : Event) : bool :=
  match e with EvCloseStopCh => true | _ => false end.

(** ** [Stop] *)

(** The body runs between [r.Lock()] and [r.Unlock()], so it is one atomic
    step.  [None] is a panic. *)
Definition Stop (r : Renewer.t) : option (Renewer.t * list Event) :=
  if negb (Renewer.stopped r) then
    match chan_close (Renewer.stopCh r) with
    | None => None
    | Some ch => Some (Renewer.with_stop r true ch, [EvCloseStopCh])
    end
  else Some (r, []).

(** ** The two renewal helpers *)

(** The variant the goroutine runs, with the local it captured before the
    loop ([token] in [renewAuth], [leaseID] in [renewLease]). *)
Inductive Variant : Type :=
| VAuth (token : string)
| VLease (leaseID : string).

(** How one pass through the loop body ends: a [return], or the final
    [select] with the argument given to [time.After]. *)
Inductive Ctl : Type :=
| Return (outcome : option error)
| Wait (d : time.Duration).

(** [select { case r.tickCh <- struct{}{}: ; default: }] *)
Definition tick (r : Renewer.t) : option (Renewer.t * Event) :=
  match chan_try_send (Renewer.tickCh r) tt with
  | None => None
  | Some (ch, taken) => Some (Renewer.with_tickCh r ch, EvTick taken)
  end.

(** The test before the loop of [renewAuth]; [None] when the loop is
    entered. *)
Definition renewAuth_enter (auth : SecretAuth.t) : option error :=
  if negb (SecretAuth.Renewable auth)
     || (SecretAuth.ClientToken auth =? "")%string
  then Some ErrRenewerNotRenewable
  else None.

(** The body of the loop of [renewAuth] from the return of
    [RenewTokenAsSelf] to the final [select]. *)
Definition renewAuth_reply (r : Renewer.t) (res : CallResult)
  : option (Renewer.t * list Event * Ctl) :=
  match err res with
  | Some e => Some (r, [], Return (Some e))
  | None =>
    match tick r with
    | None => None
    | Some (r, ev) =>
      Some (r, [ev],
        match renewal res with
        | None => Return (Some ErrRenewerNoSecretData)
        | Some renewal =>
          match Secret.Auth renewal with
          | None => Return (Some ErrRenewerNoSecretData)
          | Some auth =>
            if negb (SecretAuth.Renewable auth)
            then Return (Some ErrRenewerNotRenewable)
            else
              let leaseDuration :=
                time.mul (time.of_int (SecretAuth.LeaseDuration auth))
                         time.Second in
              if leaseDuration <=? Renewer.grace r then Return None
              else Wait (time.mul (time.div leaseDuration 2) time.Second)
          end
        end)
    end
  end.

(** The test before the loop of [renewLease]. *)
Definition renewLease_enter (secret : Secret.t) : option error :=
  if negb (Secret.Renewable secret) || (Secret.LeaseID secret =? "")%string
  then Some ErrRenewerNotRenewable
  else None.

(** The body of the loop of [renewLease] from the return of [Sys().Renew]
    to the final [select]. *)
Definition renewLease_reply (r : Renewer.t) (res : CallResult)
  : option (Renewer.t * list Event * Ctl) :=
  match err res with
  | Some e => Some (r, [], Return (Some e))
  | None =>
    match tick r with
    | None => None
    | Some (r, ev) =>
      Some (r, [ev],
        match renewal res with
        | None => Return (Some ErrRenewerNoSecretData)
        | Some renewal =>
          if negb (Secret.Renewable renewal)
          then Return (Some ErrRenewerNotRenewable)
          else
            let leaseDuration :=
              time.mul (time.of_int (Secret.LeaseDuration renewal))
                       time.Second in
            if leaseDuration <=? Renewer.grace r then Return None
            else Wait (time.mul (time.div leaseDuration 2) time.Second)
        end)
    end
  end.

(** ** The background goroutine as a machine *)

(** Where the goroutine that runs [Renew] stands: not yet started; at the
    top of the [for] of a helper, before the non-blocking check of
    [stopCh]; past a check that took the [default] branch, about to issue
    the remote call (other goroutines, [Stop] among them, can run in
    between); inside the remote call; in the final [select], with the
    argument it gave to [time.After]; back in [Renew] with the helper's
    result, about to send it on [doneCh]; and returned from [Renew]. *)
Inductive PC : Type :=
| NotStarted
| AtCheck (v : Variant)
| Checked (v : Variant)
| InCall (v : Variant)
| AtSelect (v : Variant) (d : time.Duration)
| Returned (outcome : option error)
| Finished.

Record State : Type := mkState {
  rn : Renewer.t;
  pc : PC;
  trace : list Event
}.

(** What can happen next.  [CallStop], [RecvTick] and [RecvDone] are other
    goroutines; the rest moves the background goroutine. *)
Inductive Input : Type :=
| CallStop
| RecvTick
| RecvDone
| Go
| Reply (res : CallResult)
| TimerFires
| StopObserved.

(** [Renew]: the choice of the helper and the helper's test before its
    loop. *)
Definition Renew_enter (r : Renewer.t) : PC :=
  match Secret.Auth (Renewer.secret r) with
  | Some auth =>
    match renewAuth_enter auth with
    | Some e => Returned (Some e)
    | None => AtCheck (VAuth (SecretAuth.ClientToken auth))
    end
  | None =>
    match renewLease_enter (Renewer.secret r) with
    | Some e => Returned (Some e)
    | None => AtCheck (VLease (Secret.LeaseID (Renewer.secret r)))
    end
  end.

(** The remote call that the variant issues, with increment 0. *)
Definition call_of (v : Variant) : Event :=
  match v with
  | VAuth token => EvRenewTokenAsSelf token 0
  | VLease leaseID => EvSysRenew leaseID 0
  end.

Definition reply_of (v : Variant) :=
  match v with
  | VAuth _ => renewAuth_reply
  | VLease _ => renewLease_reply
  end.

(** [select { case <-r.stopCh: return nil; default: }] *)
Definition check_stop (s : State) (v : Variant) : State :=
  match chan_try_recv (Renewer.stopCh (rn s)) with
  | Some ch =>
    mkState (Renewer.with_stop (rn s) (Renewer.stopped (rn s)) ch)
            (Returned None) (trace s)
  | None => mkState (rn s) (Checked v) (trace s)
  end.

(** The remote call is issued: [RenewTokenAsSelf(token, 0)] or
    [Sys().Renew(leaseID, 0)]. *)
Definition issue_call (s : State) (v : Variant) : State :=
  mkState (rn s) (InCall v) (trace s ++ [call_of v]).

(** The blocking send [r.doneCh <- outcome] at the end of [Renew]. *)
Definition send_done (s : State) (outcome : option error) : option State :=
  let ch := Renewer.doneCh (rn s) in
  if closed ch then None
  else if (length (buf ch) <? cap ch)%nat
       then Some (mkState
              (Renewer.with_doneCh (rn s)
                 (mkchan (cap ch) (buf ch ++ [outcome]) false))
              Finished (trace s ++ [EvDone outcome]))
       else Some s.

(** One step; [None] is a panic.  An input that cannot act in the current
    state (a goroutine that is blocked, a reply nobody waits for) leaves
    the state as it is. *)
Definition step (s : State) (i : Input) : option State :=
  match i with
  | CallStop =>
    match Stop (rn s) with
    | None => None
    | Some (r, evs) => Some (mkState r (pc s) (trace s ++ evs))
    end
  | RecvTick =>
    match chan_try_recv (Renewer.tickCh (rn s)) with
    | Some ch => Some (mkState (Renewer.with_tickCh (rn s) ch) (pc s) (trace s))
    | None => Some s
    end
  | RecvDone =>
    match chan_try_recv (Renewer.doneCh (rn s)) with
    | Some ch => Some (mkState (Renewer.with_doneCh (rn s) ch) (pc s) (trace s))
    | None => Some s
    end
  | Go =>
    match pc s with
    | NotStarted => Some (mkState (rn s) (Renew_enter (rn s)) (trace s))
    | AtCheck v => Some (check_stop s v)
    | Checked v => Some (issue_call s v)
    | Returned outcome => send_done s outcome
    | _ => Some s
    end
  | Reply res =>
    match pc s with
    | InCall v =>
      match reply_of v (rn s) res with
      | None => None
      | Some (r, evs, Return outcome) =>
        Some (mkState r (Returned outcome) (trace s ++ evs))
      | Some (r, evs, Wait d) =>
        Some (mkState r (AtSelect v d) (trace s ++ evs ++ [EvAfter d]))
      end
    | _ => Some s
    end
  | TimerFires =>
    match pc s with
    | AtSelect v _ => Some (mkState (rn s) (AtCheck v) (trace s))
    | _ => Some s
    end
  | StopObserved =>
    match pc s with
    | AtSelect v _ =>
      match chan_try_recv (Renewer.stopCh (rn s)) with
      | Some ch =>
        Some (mkState (Renewer.with_stop (rn s) (Renewer.stopped (rn s)) ch)
                      (Returned None) (trace s))
      | None => Some s
      end
    | _ => Some s
    end
  end.

Fixpoint run (s : State) (ins : list Input) : option State :=
  match ins with
  | [] => Some s
  | i :: ins =>
    match step s i with
    | None => None
    | Some s' => run s' ins
    end
  end.

(** The state in which the caller holds a fresh renewer and has not yet
    started [Renew]. *)
Definition start (r : Renewer.t) : State := mkState r NotStarted [].

Definition calls (s : State) : list Event := filter is_call (trace s).
Definition ticks (s : State) : list Event := filter is_tick (trace s).
Definition closes (s : State) : list Event := filter is_close (trace s).

Definition terminated (p : PC) : bool :=
  match p with
  | Returned _ | Finished => true
  | _ => false
  end.

(** ** Invariant of every execution *)

(** What holds in every state an execution from a fresh renewer reaches:
    nobody closes [tickCh] or [doneCh]; [stopCh] is closed exactly when
    [stopped] is set, and it was closed as many times as that says;
    [doneCh] has one slot, empty until [Renew] has written into it. *)
Record wf (s : State) : Prop := mkwf {
  wf_tick_open : closed (Renewer.tickCh (rn s)) = false;
  wf_done_open : closed (Renewer.doneCh (rn s)) = false;
  wf_stop_flag : closed (Renewer.stopCh (rn s)) = Renewer.stopped (rn s);
  wf_closes :
    length (closes s) = (if Renewer.stopped (rn s) then 1 else 0)%nat;
  wf_done_cap : cap (Renewer.doneCh (rn s)) = 1%nat;
  wf_done_empty : pc s <> Finished -> buf (Renewer.doneCh (rn s)) = []
}.

(** ** How a run ends *)

(** [ends_with s outcome]: the helper has returned [outcome]; the send at
    the end of [Renew] puts exactly that value into [doneCh]; and whatever
    happens afterwards, nothing panics and no remote call and no tick is
    added. *)
Definition ends_with (s : State) (outcome : option error) : Prop :=
  pc s = Returned outcome /\
  (exists s', step s Go = Some s' /\ pc s' = Finished /\
              buf (DoneCh (rn s')) = [outcome]) /\
  forall more, exists s',
      run s more = Some s' /\ terminated (pc s') = true /\
      calls s' = calls s /\ ticks s' = ticks s.

(** ** What a reply reports *)

(** The renewal data a variant reads in a reply: the renewable flag and
    the lease duration in seconds of the token ([renewal.Auth]) for
    [renewAuth], of the secret itself for [renewLease]; [None] when the
    reply carries none. *)
Definition reported (v : Variant) (res : CallResult) : option (bool * Z) :=
  match renewal res with
  | None => None
  | Some secret =>
    match v with
    | VAuth _ =>
      match Secret.Auth secret with
      | None => None
      | Some auth =>
        Some (SecretAuth.Renewable auth, SecretAuth.LeaseDuration auth)
      end
    | VLease _ => Some (Secret.Renewable secret, Secret.LeaseDuration secret)
    end
  end.

(** The argument that the loop gives to [time.After] for a lease duration
    of [L] seconds. *)
Definition sleep_of (L : Z) : time.Duration :=
  time.mul (time.div (time.mul (time.of_int L) time.Second) 2) time.Second.

(** ** Credentials that are refused at entry *)

(** A credential that fails the test its helper makes before the loop:
    for a secret with auth data the token's renewable flag is false or the
    token is empty; otherwise the secret's renewable flag is false or the
    lease identifier is empty. *)
Definition not_renewable (secret : Secret.t) : Prop :=
  match Secret.Auth secret with
  | Some auth =>
    SecretAuth.Renewable auth = false \/
    SecretAuth.ClientToken auth = ""%string
  | None =>
    Secret.Renewable secret = false \/ Secret.LeaseID secret = ""%string
  end.

(** ** Concrete credentials and states *)

Definition vault : Client := mkClient "https://vault:8200".

Definition lease_secret : Secret.t := Secret.mk "lease/7" 60 true None.

Definition token_secret : Secret.t :=
  Secret.mk "" 0 false (Some (SecretAuth.mk "s.token" true 3600)).

(** The renewer that [NewRenewer] builds for a secret and a non-zero
    grace. *)
Definition fresh (secret : Secret.t) (g : time.Duration) : Renewer.t :=
  Renewer.mk vault secret g (make 1) (make 5) false (make 1).

(** The state in which the first remote call of a fresh renewer is in
    flight. *)
Definition calling (secret : Secret.t) (g : time.Duration) (v : Variant)
  : State :=
  mkState (fresh secret g) (InCall v) [call_of v].

(** The state a run from a fresh renewer reaches (the start state stands
    in for a run that panics). *)
Definition after (r : Renewer.t) (ins : list Input) : State :=
  match run (start r) ins with
  | Some s => s
  | None => start r
  end.

(** A renewer whose [Renew] has entered the loop and whose [Stop] was
    then called twice, a tick consumer running in between. *)
Definition stopped_twice : State :=
  after (fresh token_secret 15000000000) [Go; CallStop; RecvTick; CallStop].

Definition lease_reply (renewable : bool) (L : Z) : CallResult :=
  mkCallResult (Some (Secret.mk "lease/7" L renewable None)) None.

Definition token_reply (renewable : bool) (L : Z) : CallResult :=
  mkCallResult
    (Some (Secret.mk "" 0 false (Some (SecretAuth.mk "s.token" renewable L))))
    None.


(** ** Further observations of an execution *)

Definition is_done (e : Event) : bool :=
  match e with EvDone _ => true | _ => false end.

Definition dones (s : State) : list Event := filter is_done (trace s).

(** The variant that [Renew] picks for a secret, with the identifier its
    helper keeps in a local before the loop. *)
Definition variant_of (secret : Secret.t) : Variant :=
  match Secret.Auth secret with
  | Some auth => VAuth (SecretAuth.ClientToken auth)
  | None => VLease (Secret.LeaseID secret)
  end.

(** The variant a program counter inside a helper's loop carries. *)
Definition in_loop (p : PC) : option Variant :=
  match p with
  | AtCheck v | Checked v | InCall v | AtSelect v _ => Some v
  | _ => None
  end.

(** 1 while a remote call is in flight. *)
Definition in_call (p : PC) : nat :=
  match p with
  | InCall _ => 1
  | _ => 0
  end.

(** [n] passes through the loop in which the remote call answers [res]
    and the timer of the final [select] fires. *)
Fixpoint rounds (n : nat) (res : CallResult) : list Input :=
  match n with
  | O => []
  | S n => Go :: Go :: Reply res :: TimerFires :: rounds n res
  end.

(** What every execution keeps, beyond [wf], for a renewer built for
    [secret]. *)
Record inv (secret : Secret.t) (s : State) : Prop := mkinv {
  inv_secret : Renewer.secret (rn s) = secret;
  inv_tick_cap : cap (Renewer.tickCh (rn s)) = 5%nat;
  inv_tick_len : (length (buf (Renewer.tickCh (rn s))) <= 5)%nat;
  inv_done_cap : cap (Renewer.doneCh (rn s)) = 1%nat;
  inv_done_len : (length (buf (Renewer.doneCh (rn s))) <= 1)%nat;
  inv_stop_buf : buf (Renewer.stopCh (rn s)) = [];
  inv_dones :
    length (dones s) =
    match pc s with Finished => 1%nat | _ => 0%nat end;
  inv_calls : Forall (fun e => e = call_of (variant_of secret)) (calls s);
  inv_variant : forall v, in_loop (pc s) = Some v -> v = variant_of secret;
  inv_ticks : (length (ticks s) + in_call (pc s) <= length (calls s))%nat
}.

(** Where the goroutine can stand after each input of the schedule
    [Go; Go; Reply res; TimerFires; Go] once [stopCh] is closed. *)
Definition past_entry (p : PC) : bool :=
  match p with NotStarted | Checked _ => false | _ => true end.

Definition in_call_or_later (p : PC) : bool :=
  match p with
  | InCall _ | AtSelect _ _ | Returned _ | Finished => true
  | _ => false
  end.

Definition past_call (p : PC) : bool :=
  match p with AtSelect _ _ | Returned _ | Finished => true | _ => false end.

Definition at_check_or_done (p : PC) : bool :=
  match p with AtCheck _ | Returned _ | Finished => true | _ => false end.

(** 1 while the goroutine has passed a check that found [stopCh] open
    and has not yet issued the call. *)
Definition checked (p : PC) : nat :=
  match p with
  | Checked _ => 1
  | _ => 0
  end.

(** A credential that passes the test its helper makes before the
    loop. *)
Definition renewable_credential (secret : Secret.t) : Prop :=
  match Secret.Auth secret with
  | Some auth =>
    SecretAuth.Renewable auth = true /\
    SecretAuth.ClientToken auth <> ""%string
  | None =>
    Secret.Renewable secret = true /\ Secret.LeaseID secret <> ""%string
  end.

(** A reply that keeps the loop going under grace [g]: no error,
    renewable, and a lease duration of L seconds, within the range that
    fits 64-bit nanoseconds, above the grace. *)
Definition keeps_renewing (v : Variant) (g : time.Duration)
           (res : CallResult) : Prop :=
  err res = None /\
  exists L,
    reported v res = Some (true, L) /\
    -9223372036 <= L <= 9223372036 /\
    g < L * 1000000000.

(** One pass through the loop for each of the replies, the timer of the
    final [select] firing after each. *)
Fixpoint rounds_of (replies : list CallResult) : list Input :=
  match replies with
  | [] => []
  | res :: replies => Go :: Go :: Reply res :: TimerFires :: rounds_of replies
  end.

(** What a reply decides, read off the reply and the grace. *)
Definition verdict (v : Variant) (g : time.Duration) (res : CallResult)
           (outcome : option error) : Prop :=
  match err res with
  | Some e => outcome = Some e
  | None =>
    match reported v res with
    | None => outcome = Some ErrRenewerNoSecretData
    | Some (false, _) => outcome = Some ErrRenewerNotRenewable
    | Some (true, L) =>
      outcome = None /\ time.mul (time.of_int L) time.Second <= g
    end
  end.

(** * Lemmas *)

(** ** Traces *)

Ltac trace_facts :=
  unfold closes, calls, ticks in *; simpl in *;
  rewrite ?filter_app, ?length_app; simpl;
  rewrite ?app_nil_r, ?Nat.add_0_r.

Ltac stay := eexists; split; [reflexivity | assumption].

Lemma wf_start (c : Client) (i : RenewerInput.t) (r : Renewer.t) :
  NewRenewer c (Some i) = (Some r, None) -> wf (start r).
Proof.
  unfold NewRenewer. destruct (RenewerInput.Secret i); intros H;
    inversion H; subst; clear H.
  constructor; simpl; try reflexivity.
Qed.

(** The events of one pass through a loop body: at most one tick, no
    remote call, no close. *)
Lemma reply_of_events (v : Variant) (r r' : Renewer.t) (res : CallResult)
      (evs : list Event) (k : Ctl) :
  reply_of v r res = Some (r', evs, k) ->
  filter is_call evs = [] /\ filter is_close evs = [] /\
  Renewer.doneCh r' = Renewer.doneCh r /\
  Renewer.stopCh r' = Renewer.stopCh r /\
  Renewer.stopped r' = Renewer.stopped r /\
  Renewer.grace r' = Renewer.grace r /\
  closed (Renewer.tickCh r') = closed (Renewer.tickCh r).
Proof.
  destruct v; simpl; unfold renewAuth_reply, renewLease_reply, tick, chan_try_send;
    destruct (err res);
    try (intros H; inversion H; subst; simpl; repeat split; reflexivity);
    destruct (closed (Renewer.tickCh r)) eqn:Hc; try discriminate;
    destruct (_ <? _)%nat; intros H; inversion H; subst; simpl;
    repeat split; auto.
Qed.

Lemma reply_of_total (v : Variant) (r : Renewer.t) (res : CallResult) :
  closed (Renewer.tickCh r) = false ->
  exists r' evs k, reply_of v r res = Some (r', evs, k).
Proof.
  intros Hc.
  destruct v; simpl; unfold renewAuth_reply, renewLease_reply, tick, chan_try_send;
    rewrite Hc; (destruct (err res); [eauto|]); destruct (_ <? _)%nat; eauto.
Qed.

Lemma step_wf (s : State) (i : Input) :
  wf s -> exists s', step s i = Some s' /\ wf s'.
Proof.
  intros Hwf. pose proof Hwf as [Ht Hd Hs Hc Hcap He].
  destruct i; simpl.
  - (* CallStop *)
    unfold Stop, chan_close. rewrite Hs.
    destruct (Renewer.stopped (rn s)) eqn:Hst; simpl.
    + eexists; split; [reflexivity|].
      constructor; simpl; auto.
      * rewrite Hst; auto.
      * rewrite Hst. trace_facts. exact Hc.
    + eexists; split; [reflexivity|].
      constructor; simpl; auto.
      trace_facts. rewrite Hc. reflexivity.
  - (* RecvTick *)
    unfold chan_try_recv. rewrite Ht.
    destruct (buf (Renewer.tickCh (rn s))); eexists; split;
      try reflexivity; constructor; simpl; auto.
  - (* RecvDone *)
    unfold chan_try_recv. rewrite Hd.
    destruct (buf (Renewer.doneCh (rn s))) eqn:Hb; eexists; split;
      try reflexivity; constructor; simpl; auto.
    intros Hne. specialize (He Hne). discriminate.
  - (* Go *)
    destruct (pc s) eqn:Hpc; try (stay; fail).
    + eexists; split; [reflexivity|]. constructor; simpl; auto.
      intros _. apply He. discriminate.
    + eexists; split; [reflexivity|].
      unfold check_stop, chan_try_recv.
      assert (Hb : buf (Renewer.doneCh (rn s)) = [])
        by (apply He; discriminate).
      destruct (buf (Renewer.stopCh (rn s)));
        [destruct (closed (Renewer.stopCh (rn s))) eqn:Hcl|];
        constructor; simpl; auto; try congruence;
        destruct v; trace_facts; exact Hc.
    + eexists; split; [reflexivity|]. unfold issue_call.
      assert (Hb : buf (Renewer.doneCh (rn s)) = [])
        by (apply He; discriminate).
      constructor; simpl; auto.
      destruct v; trace_facts; exact Hc.
    + unfold send_done. cbv zeta. rewrite Hd.
      assert (Hb : buf (Renewer.doneCh (rn s)) = [])
        by (apply He; discriminate).
      rewrite Hb, Hcap. simpl.
      eexists; split; [reflexivity|]. constructor; simpl; auto.
      * trace_facts. exact Hc.
      * intros Hne. exfalso. apply Hne. reflexivity.
  - (* Reply *)
    destruct (pc s) eqn:Hpc; try (stay; fail).
    destruct (reply_of_total v (rn s) res Ht) as (r' & evs & k & Hr).
    rewrite Hr.
    destruct (reply_of_events _ _ _ _ _ _ Hr)
      as (_ & Hcl & Hdn & Hsc & Hsd & _ & Htc).
    assert (Hb : buf (Renewer.doneCh (rn s)) = [])
      by (apply He; discriminate).
    destruct k; eexists; (split; [reflexivity|]);
      constructor; simpl; rewrite ?Hdn, ?Hsc, ?Hsd, ?Htc; auto;
      trace_facts; rewrite Hcl; trace_facts; exact Hc.
  - (* TimerFires *)
    destruct (pc s) eqn:Hpc; try (stay; fail).
    eexists; split; [reflexivity|]. constructor; simpl; auto.
    intros _. apply He. discriminate.
  - (* StopObserved *)
    destruct (pc s) eqn:Hpc; try (stay; fail).
    assert (Hb : buf (Renewer.doneCh (rn s)) = [])
      by (apply He; discriminate).
    unfold chan_try_recv.
    destruct (buf (Renewer.stopCh (rn s)));
      [destruct (closed (Renewer.stopCh (rn s))) eqn:Hcl|];
      eexists; (split; [reflexivity|]); constructor; simpl; auto;
      congruence.
Qed.

Lemma run_wf (ins : list Input) :
  forall s, wf s -> exists s', run s ins = Some s' /\ wf s'.
Proof.
  induction ins as [|i ins IH]; intros s Hwf; simpl.
  - exists s. split; [reflexivity | assumption].
  - destruct (step_wf s i Hwf) as (s1 & Hstep & Hwf1).
    rewrite Hstep. apply IH. assumption.
Qed.

(** Every state of an execution that starts from a constructed renewer
    satisfies the invariant. *)
Lemma execution_wf (c : Client) (i : RenewerInput.t) (r : Renewer.t)
      (ins : list Input) (s : State) :
  NewRenewer c (Some i) = (Some r, None) ->
  run (start r) ins = Some s ->
  wf s.
Proof.
  intros Hnew Hrun.
  destruct (run_wf ins (start r) (wf_start c i r Hnew)) as (s' & Hs' & Hwf).
  rewrite Hrun in Hs'. inversion Hs'; subst. assumption.
Qed.

(** *** Once the helper has returned *)

Lemma step_terminated (s s' : State) (i : Input) :
  terminated (pc s) = true ->
  step s i = Some s' ->
  terminated (pc s') = true /\ calls s' = calls s /\ ticks s' = ticks s.
Proof.
  intros Ht Hstep.
  destruct i; simpl in Hstep.
  - destruct (Stop (rn s)) as [[r evs]|] eqn:Hstop; [|discriminate].
    inversion Hstep; subst; clear Hstep. simpl.
    unfold Stop in Hstop.
    destruct (negb (Renewer.stopped (rn s)));
      [destruct (chan_close (Renewer.stopCh (rn s))); [|discriminate]|];
      inversion Hstop; subst; trace_facts; auto.
  - destruct (chan_try_recv (Renewer.tickCh (rn s)));
      inversion Hstep; subst; auto.
  - destruct (chan_try_recv (Renewer.doneCh (rn s)));
      inversion Hstep; subst; auto.
  - destruct (pc s) eqn:Hpc; try discriminate.
    + unfold send_done in Hstep. cbv zeta in Hstep.
      destruct (closed (Renewer.doneCh (rn s))); [discriminate|].
      destruct (_ <? _)%nat; inversion Hstep; subst; simpl.
      * trace_facts. auto.
      * rewrite Hpc. auto.
    + inversion Hstep; subst. rewrite Hpc. auto.
  - destruct (pc s) eqn:Hpc; try discriminate;
      inversion Hstep; subst; rewrite Hpc; auto.
  - destruct (pc s) eqn:Hpc; try discriminate;
      inversion Hstep; subst; rewrite Hpc; auto.
  - destruct (pc s) eqn:Hpc; try discriminate;
      inversion Hstep; subst; rewrite Hpc; auto.
Qed.

Lemma run_terminated (ins : list Input) :
  forall s s',
    terminated (pc s) = true ->
    run s ins = Some s' ->
    terminated (pc s') = true /\ calls s' = calls s /\ ticks s' = ticks s.
Proof.
  induction ins as [|i ins IH]; intros s s' Ht Hrun; simpl in Hrun.
  - inversion Hrun; subst. auto.
  - destruct (step s i) as [s1|] eqn:Hstep; [|discriminate].
    destruct (step_terminated s s1 i Ht Hstep) as (Ht1 & Hc1 & Hk1).
    destruct (IH s1 s' Ht1 Hrun) as (Ht2 & Hc2 & Hk2).
    repeat split; congruence.
Qed.

(** A terminated, well-formed state stays terminated under any further
    inputs, never panics, and gains no remote call and no tick. *)
Lemma after_return (s : State) (ins : list Input) :
  wf s ->
  terminated (pc s) = true ->
  exists s', run s ins = Some s' /\ terminated (pc s') = true /\
             calls s' = calls s /\ ticks s' = ticks s.
Proof.
  intros Hwf Ht.
  destruct (run_wf ins s Hwf) as (s' & Hrun & _).
  exists s'. split; [assumption|].
  eapply run_terminated; eassumption.
Qed.

(** *** Once [stopCh] is closed *)

Lemma Renew_enter_checked (r : Renewer.t) : checked (Renew_enter r) = 0%nat.
Proof.
  unfold Renew_enter.
  destruct (Secret.Auth (Renewer.secret r)) as [auth|].
  - destruct (renewAuth_enter auth); reflexivity.
  - destruct (renewLease_enter (Renewer.secret r)); reflexivity.
Qed.

(** With [stopCh] closed, the only remote call still to come is the one
    of a goroutine that has already passed its check. *)
Lemma step_closed_stop (s s' : State) (i : Input) :
  closed (Renewer.stopCh (rn s)) = true ->
  step s i = Some s' ->
  closed (Renewer.stopCh (rn s')) = true /\
  (checked (pc s) = 0%nat ->
   checked (pc s') = 0%nat /\ calls s' = calls s) /\
  (length (calls s') + checked (pc s')
   = length (calls s) + checked (pc s))%nat.
Proof.
  intros Hcl Hstep.
  destruct i; simpl in Hstep.
  - unfold Stop, chan_close in Hstep. rewrite Hcl in Hstep.
    destruct (negb (Renewer.stopped (rn s))); [discriminate|].
    inversion Hstep; subst; simpl. trace_facts. auto.
  - destruct (chan_try_recv (Renewer.tickCh (rn s)));
      inversion Hstep; subst; auto.
  - destruct (chan_try_recv (Renewer.doneCh (rn s)));
      inversion Hstep; subst; auto.
  - destruct (pc s) eqn:Hpc;
      try (inversion Hstep; subst; rewrite Hpc; auto; fail).
    + inversion Hstep; subst; clear Hstep. simpl.
      rewrite Renew_enter_checked. auto.
    + inversion Hstep; subst; clear Hstep.
      unfold check_stop, chan_try_recv. rewrite Hcl.
      destruct (buf (Renewer.stopCh (rn s))); simpl; auto.
    + inversion Hstep; subst; clear Hstep. unfold issue_call; simpl.
      split; [assumption|]. split; [discriminate|].
      destruct v; trace_facts; lia.
    + unfold send_done in Hstep. cbv zeta in Hstep.
      destruct (closed (Renewer.doneCh (rn s))); [discriminate|].
      destruct (_ <? _)%nat; inversion Hstep; subst; simpl;
        [|rewrite Hpc; auto].
      trace_facts. auto.
  - destruct (pc s) eqn:Hpc;
      try (inversion Hstep; subst; rewrite Hpc; auto; fail).
    destruct (reply_of v (rn s) res) as [[[r evs] k]|] eqn:Hr;
      [|discriminate].
    destruct (reply_of_events _ _ _ _ _ _ Hr)
      as (Hca & _ & _ & Hsc & _ & _ & _).
    destruct k; inversion Hstep; subst; simpl; rewrite Hsc;
      trace_facts; rewrite Hca; trace_facts; auto.
  - destruct (pc s) eqn:Hpc; inversion Hstep; subst; try rewrite Hpc; auto.
  - destruct (pc s) eqn:Hpc;
      try (inversion Hstep; subst; rewrite Hpc; auto; fail).
    unfold chan_try_recv in Hstep. rewrite Hcl in Hstep.
    destruct (buf (Renewer.stopCh (rn s)));
      inversion Hstep; subst; simpl; auto.
Qed.

Lemma run_closed_stop (ins : list Input) :
  forall s s',
    closed (Renewer.stopCh (rn s)) = true ->
    run s ins = Some s' ->
    closed (Renewer.stopCh (rn s')) = true /\
    (checked (pc s) = 0%nat ->
     checked (pc s') = 0%nat /\ calls s' = calls s) /\
    (length (calls s') + checked (pc s')
     = length (calls s) + checked (pc s))%nat.
Proof.
  induction ins as [|i ins IH]; intros s s' Hcl Hrun; simpl in Hrun.
  - inversion Hrun; subst. auto.
  - destruct (step s i) as [s1|] eqn:Hstep; [|discriminate].
    destruct (step_closed_stop s s1 i Hcl Hstep) as (Hcl1 & Hz1 & Hq1).
    destruct (IH s1 s' Hcl1 Hrun) as (Hcl2 & Hz2 & Hq2).
    split; [assumption|]. split; [|lia].
    intros Hz. destruct (Hz1 Hz) as (Hz1' & Hc1).
    destruct (Hz2 Hz1') as (Hz2' & Hc2).
    split; congruence.
Qed.

(** [stopped] is set by [Stop] and never reset. *)
Lemma step_stopped (s s' : State) (i : Input) :
  step s i = Some s' ->
  (i = CallStop \/ Renewer.stopped (rn s) = true) ->
  Renewer.stopped (rn s') = true.
Proof.
  intros Hstep Hor.
  destruct i; simpl in Hstep.
  - unfold Stop in Hstep.
    destruct (Renewer.stopped (rn s)) eqn:Hst; simpl in Hstep.
    + inversion Hstep; subst; simpl. assumption.
    + destruct (chan_close (Renewer.stopCh (rn s))); inversion Hstep;
        subst; reflexivity.
  - destruct Hor as [Hor|Hst]; [discriminate|].
    destruct (chan_try_recv (Renewer.tickCh (rn s)));
      inversion Hstep; subst; auto.
  - destruct Hor as [Hor|Hst]; [discriminate|].
    destruct (chan_try_recv (Renewer.doneCh (rn s)));
      inversion Hstep; subst; auto.
  - destruct Hor as [Hor|Hst]; [discriminate|].
    destruct (pc s) eqn:Hpc; try (inversion Hstep; subst; auto; fail).
    + inversion Hstep; subst; clear Hstep.
      unfold check_stop.
      destruct (chan_try_recv (Renewer.stopCh (rn s))); simpl; auto.
    + unfold send_done in Hstep. cbv zeta in Hstep.
      destruct (closed (Renewer.doneCh (rn s))); [discriminate|].
      destruct (_ <? _)%nat; inversion Hstep; subst; simpl; auto.
  - destruct Hor as [Hor|Hst]; [discriminate|].
    destruct (pc s) eqn:Hpc; try (inversion Hstep; subst; auto; fail).
    destruct (reply_of v (rn s) res) as [[[r evs] k]|] eqn:Hr;
      [|discriminate].
    destruct (reply_of_events _ _ _ _ _ _ Hr)
      as (_ & _ & _ & _ & Hsd & _ & _).
    destruct k; inversion Hstep; subst; simpl; congruence.
  - destruct Hor as [Hor|Hst]; [discriminate|].
    destruct (pc s) eqn:Hpc; inversion Hstep; subst; auto.
  - destruct Hor as [Hor|Hst]; [discriminate|].
    destruct (pc s) eqn:Hpc; try (inversion Hstep; subst; auto; fail).
    destruct (chan_try_recv (Renewer.stopCh (rn s)));
      inversion Hstep; subst; simpl; auto.
Qed.

Lemma run_stopped (ins : list Input) :
  forall s s',
    run s ins = Some s' ->
    (In CallStop ins \/ Renewer.stopped (rn s) = true) ->
    Renewer.stopped (rn s') = true.
Proof.
  induction ins as [|i ins IH]; intros s s' Hrun Hor; simpl in Hrun.
  - inversion Hrun; subst. destruct Hor as [[]|]; assumption.
  - destruct (step s i) as [s1|] eqn:Hstep; [|discriminate].
    simpl in Hor.
    destruct Hor as [[Heq|Hin]|Hst].
    + apply (IH s1 s' Hrun). right.
      apply (step_stopped s s1 i Hstep). left. assumption.
    + apply (IH s1 s' Hrun). left. assumption.
    + apply (IH s1 s' Hrun). right.
      apply (step_stopped s s1 i Hstep). right. assumption.
Qed.

(** The client, the secret and the grace of a renewer never change. *)
Lemma step_immutable (s s' : State) (i : Input) :
  step s i = Some s' ->
  Renewer.client (rn s') = Renewer.client (rn s) /\
  Renewer.secret (rn s') = Renewer.secret (rn s) /\
  Renewer.grace (rn s') = Renewer.grace (rn s).
Proof.
  intros Hstep.
  destruct i; simpl in Hstep.
  - unfold Stop in Hstep.
    destruct (negb (Renewer.stopped (rn s)));
      [destruct (chan_close (Renewer.stopCh (rn s))); [|discriminate]|];
      inversion Hstep; subst; auto.
  - destruct (chan_try_recv (Renewer.tickCh (rn s)));
      inversion Hstep; subst; auto.
  - destruct (chan_try_recv (Renewer.doneCh (rn s)));
      inversion Hstep; subst; auto.
  - destruct (pc s); try (inversion Hstep; subst; auto; fail).
    + inversion Hstep; subst. unfold check_stop.
      destruct (chan_try_recv (Renewer.stopCh (rn s))); auto.
    + unfold send_done in Hstep. cbv zeta in Hstep.
      destruct (closed (Renewer.doneCh (rn s))); [discriminate|].
      destruct (_ <? _)%nat; inversion Hstep; subst; auto.
  - destruct (pc s); try (inversion Hstep; subst; auto; fail).
    destruct v; simpl in Hstep;
      unfold renewAuth_reply, renewLease_reply, tick in Hstep;
      destruct (err res);
      try (inversion Hstep; subst; auto; fail);
      destruct (chan_try_send (Renewer.tickCh (rn s)) tt) as [[ch b]|];
      try discriminate;
      match type of Hstep with
      | context [match ?k with Return _ => _ | Wait _ => _ end] =>
        destruct k
      end; inversion Hstep; subst; auto.
  - destruct (pc s); inversion Hstep; subst; auto.
  - destruct (pc s); try (inversion Hstep; subst; auto; fail).
    destruct (chan_try_recv (Renewer.stopCh (rn s)));
      inversion Hstep; subst; auto.
Qed.

Lemma run_grace (ins : list Input) :
  forall s s', run s ins = Some s' ->
               Renewer.grace (rn s') = Renewer.grace (rn s).
Proof.
  induction ins as [|i ins IH]; intros s s' Hrun; simpl in Hrun.
  - inversion Hrun; reflexivity.
  - destruct (step s i) as [s1|] eqn:Hstep; [|discriminate].
    destruct (step_immutable s s1 i Hstep) as (_ & _ & Hg).
    rewrite (IH s1 s' Hrun). assumption.
Qed.

Lemma returned_ends (s : State) (outcome : option error) :
  wf s -> pc s = Returned outcome -> ends_with s outcome.
Proof.
  intros Hwf Hpc. split; [assumption|]. split.
  - destruct Hwf as [_ Hd _ _ Hcap He].
    simpl. rewrite Hpc. unfold send_done. cbv zeta.
    rewrite Hd, He, Hcap by (rewrite Hpc; discriminate). simpl.
    eexists. split; [reflexivity|]. split; reflexivity.
  - intros more. apply after_return; [assumption|].
    rewrite Hpc. reflexivity.
Qed.

(** ** Arithmetic of durations *)

Lemma wrap_small (z : Z) :
  - 2 ^ 63 <= z < 2 ^ 63 -> time.wrap z = z.
Proof.
  intros H. unfold time.wrap.
  rewrite Z.mod_small; lia.
Qed.

(** For a lease duration of at most 9223372036 seconds in absolute value
    the conversion to nanoseconds is exact. *)
Lemma seconds_exact (L : Z) :
  -9223372036 <= L <= 9223372036 ->
  time.mul (time.of_int L) time.Second = L * 1000000000.
Proof.
  intros H. unfold time.mul, time.of_int, time.Second, time.Nanosecond.
  rewrite (wrap_small L) by lia.
  rewrite wrap_small by lia. lia.
Qed.

(** As long as the product does not overflow (lease durations of 1 to 18
    seconds), the argument of [time.After] is the half lease duration in
    nanoseconds multiplied once more by [time.Second]. *)
Lemma sleep_of_small (L : Z) :
  0 <= L <= 18 ->
  sleep_of L = (L * 1000000000 / 2) * 1000000000.
Proof.
  intros H. unfold sleep_of. rewrite seconds_exact by lia.
  unfold time.mul, time.div, time.Second, time.Nanosecond.
  rewrite Z.quot_div_nonneg by lia.
  assert (Hd : L * 1000000000 / 2 = L * 500000000).
  { replace (L * 1000000000) with (L * 500000000 * 2) by lia.
    apply Z.div_mul. lia. }
  rewrite Hd.
  rewrite (wrap_small (L * 500000000)) by lia.
  rewrite wrap_small by lia. lia.
Qed.

(** Every reduction to [int64] differs from its argument by a multiple of
    2^64. *)
Lemma wrap_congr (z : Z) : exists q, time.wrap z = z - 2 ^ 64 * q.
Proof.
  unfold time.wrap. exists ((z + 2 ^ 63) / 2 ^ 64).
  pose proof (Z.div_mod (z + 2 ^ 63) (2 ^ 64)) as H.
  lia.
Qed.

(** For no positive lease duration that fits [time.Duration] is the
    argument of [time.After] half of that duration. *)
Lemma sleep_never_half (L : Z) :
  0 < L <= 9223372036 ->
  sleep_of L <> L * 1000000000 / 2.
Proof.
  intros HL Heq. unfold sleep_of in Heq.
  rewrite seconds_exact in Heq by lia.
  unfold time.mul, time.div, time.Second, time.Nanosecond in Heq.
  rewrite Z.quot_div_nonneg in Heq by lia.
  assert (Hd : L * 1000000000 / 2 = L * 500000000).
  { replace (L * 1000000000) with (L * 500000000 * 2) by lia.
    apply Z.div_mul. lia. }
  rewrite Hd in Heq.
  rewrite (wrap_small (L * 500000000)) in Heq by lia.
  destruct (wrap_congr (L * 500000000 * (1000000000 * 1))) as (q & Hq).
  rewrite Hq in Heq.
  assert (Hdiv : (2 ^ 56 | 1953124998046875 * L)).
  { exists q.
    replace (2 ^ 64) with (2 ^ 56 * 256) in Heq by reflexivity. lia. }
  apply Z.gauss in Hdiv.
  - apply Z.divide_pos_le in Hdiv; [|lia].
    change (2 ^ 56) with 72057594037927936 in Hdiv. lia.
  - reflexivity.
Qed.

(** ** What a reply decides *)

Lemma reply_of_ctl (v : Variant) (r r' : Renewer.t) (res : CallResult)
      (evs : list Event) (k : Ctl) :
  reply_of v r res = Some (r', evs, k) ->
  k = match err res with
      | Some e => Return (Some e)
      | None =>
        match reported v res with
        | None => Return (Some ErrRenewerNoSecretData)
        | Some (false, _) => Return (Some ErrRenewerNotRenewable)
        | Some (true, L) =>
          if time.mul (time.of_int L) time.Second <=? Renewer.grace r
          then Return None
          else Wait (sleep_of L)
        end
      end /\
  (err res <> None -> evs = []).
Proof.
  unfold reported, sleep_of.
  destruct v; simpl; unfold renewAuth_reply, renewLease_reply, tick;
    (destruct (err res);
     [intros H; inversion H; subst; split; [reflexivity|reflexivity]|]);
    (destruct (chan_try_send (Renewer.tickCh r) tt) as [[ch b]|];
     [|discriminate]);
    intros H; inversion H; subst; clear H; simpl;
    (split; [|intros Hn; exfalso; apply Hn; reflexivity]);
    destruct (renewal res) as [secret|]; try reflexivity.
  - destruct (Secret.Auth secret) as [auth|]; try reflexivity.
    destruct (SecretAuth.Renewable auth); reflexivity.
  - destruct (Secret.Renewable secret); reflexivity.
Qed.

(** The step that consumes a reply, in a well-formed state. *)
Lemma step_reply (s : State) (v : Variant) (res : CallResult) :
  wf s ->
  pc s = InCall v ->
  exists s',
    step s (Reply res) = Some s' /\ wf s' /\ calls s' = calls s /\
    Renewer.grace (rn s') = Renewer.grace (rn s) /\
    pc s' =
    match err res with
    | Some e => Returned (Some e)
    | None =>
      match reported v res with
      | None => Returned (Some ErrRenewerNoSecretData)
      | Some (false, _) => Returned (Some ErrRenewerNotRenewable)
      | Some (true, L) =>
        if time.mul (time.of_int L) time.Second <=? Renewer.grace (rn s)
        then Returned None
        else AtSelect v (sleep_of L)
      end
    end /\
    (err res <> None -> trace s' = trace s).
Proof.
  intros Hwf Hpc.
  destruct (step_wf s (Reply res) Hwf) as (s' & Hstep & Hwf').
  exists s'. split; [assumption|]. split; [assumption|].
  destruct (step_immutable s s' _ Hstep) as (_ & _ & Hg).
  simpl in Hstep. rewrite Hpc in Hstep.
  destruct (reply_of v (rn s) res) as [[[r' evs] k]|] eqn:Hr; [|discriminate].
  destruct (reply_of_events _ _ _ _ _ _ Hr) as (Hca & _).
  destruct (reply_of_ctl _ _ _ _ _ _ Hr) as (Hk & Hevs).
  split; [|split; [assumption|]].
  - destruct k; inversion Hstep; subst s'; trace_facts; rewrite Hca;
      trace_facts; reflexivity.
  - destruct (err res) as [e|].
    + assert (He : evs = []) by (apply Hevs; discriminate).
      subst. inversion Hstep; subst; simpl.
      split; [reflexivity|]. intros _. apply app_nil_r.
    + split; [|intros Hn; exfalso; apply Hn; reflexivity].
      destruct (reported v res) as [[[|] L]|];
        [destruct (_ <=? _)|..]; subst k; inversion Hstep; reflexivity.
Qed.

(** * Properties *)

(** ** Construction *)

(** C5: [NewRenewer] validates in order and answers directly: a nil input
    gives [ErrRenewerMissingInput], an input with a nil secret gives
    [ErrRenewerMissingSecret]; otherwise it succeeds, a grace of exactly
    zero becomes 15 seconds and any other grace is kept, both buffered
    channels are empty and open (one slot for done, five for ticks), the
    stop channel is open and [stopped] is false.  Construction is a pure
    function: the execution that starts from the new renewer has seen no
    event. *)
Theorem NewRenewer_validates (c : Client) :
  NewRenewer c None = (None, Some ErrRenewerMissingInput) /\
  (forall g,
      NewRenewer c (Some (RenewerInput.mk None g))
      = (None, Some ErrRenewerMissingSecret)) /\
  (forall secret g,
      NewRenewer c (Some (RenewerInput.mk (Some secret) g))
      = (Some (Renewer.mk c secret
                 (if g =? 0 then 15 * 1000000000 else g)
                 (mkchan 1 [] false) (mkchan 5 [] false)
                 false (mkchan 1 [] false)),
         None)) /\
  (forall i r,
      NewRenewer c (Some i) = (Some r, None) ->
      pc (start r) = NotStarted /\ trace (start r) = []).
Proof.
  repeat split; intros; reflexivity.
Qed.

(** ** Entry *)

(** C7: when the credential fails its variant's precondition, [Renew]
    ends at once with [ErrRenewerNotRenewable], having issued no remote
    call and no tick; none is issued afterwards either. *)
Theorem not_renewable_at_entry
        (c : Client) (i : RenewerInput.t) (r : Renewer.t) :
  NewRenewer c (Some i) = (Some r, None) ->
  not_renewable (Renewer.secret r) ->
  exists s,
    step (start r) Go = Some s /\
    ends_with s (Some ErrRenewerNotRenewable) /\
    calls s = [] /\ ticks s = [].
Proof.
  intros Hnew Hnot.
  pose proof (wf_start c i r Hnew) as Hwf.
  destruct (step_wf (start r) Go Hwf) as (s & Hstep & Hwfs).
  exists s. split; [assumption|].
  simpl in Hstep. inversion Hstep; subst s; clear Hstep.
  assert (Hpc : Renew_enter r = Returned (Some ErrRenewerNotRenewable)).
  { unfold Renew_enter, not_renewable in *.
    destruct (Secret.Auth (Renewer.secret r)) as [auth|].
    - unfold renewAuth_enter.
      destruct Hnot as [H|H]; rewrite H; simpl; [reflexivity|].
      rewrite orb_true_r. reflexivity.
    - unfold renewLease_enter.
      destruct Hnot as [H|H]; rewrite H; simpl; [reflexivity|].
      rewrite orb_true_r. reflexivity. }
  split; [|split; reflexivity].
  apply returned_ends; assumption.
Qed.

Lemma not_renewable_at_entry_witness :
  exists s,
    step (start (fresh (Secret.mk "" 60 true None) 15000000000)) Go
    = Some s /\
    ends_with s (Some ErrRenewerNotRenewable) /\
    calls s = [] /\ ticks s = [].
Proof.
  apply (not_renewable_at_entry
           vault (RenewerInput.mk (Some (Secret.mk "" 60 true None)) 0)).
  - reflexivity.
  - simpl. right. reflexivity.
Defined.

(** ** Replies of the remote service *)

(** C6: when the remote call returns an error, the helper returns that
    very error, without a tick, and no remote call follows. *)
Theorem remote_error_is_outcome
        (c : Client) (i : RenewerInput.t) (r : Renewer.t)
        (ins : list Input) (s : State) (v : Variant)
        (res : CallResult) (e : error) :
  NewRenewer c (Some i) = (Some r, None) ->
  run (start r) ins = Some s ->
  pc s = InCall v ->
  err res = Some e ->
  exists s',
    step s (Reply res) = Some s' /\
    ends_with s' (Some e) /\
    trace s' = trace s.
Proof.
  intros Hnew Hrun Hpc Herr.
  pose proof (execution_wf c i r ins s Hnew Hrun) as Hwf.
  destruct (step_reply s v res Hwf Hpc)
    as (s' & Hstep & Hwf' & _ & _ & Hpc' & Htr).
  rewrite Herr in Hpc', Htr.
  exists s'. split; [assumption|]. split.
  - apply returned_ends; assumption.
  - apply Htr. discriminate.
Qed.

Lemma remote_error_is_outcome_witness :
  exists s',
    step (calling lease_secret 15000000000 (VLease "lease/7"))
         (Reply (mkCallResult None (Some (ErrRemote "connection refused"))))
    = Some s' /\
    ends_with s' (Some (ErrRemote "connection refused")) /\
    trace s' = trace (calling lease_secret 15000000000 (VLease "lease/7")).
Proof.
  apply (remote_error_is_outcome
           vault (RenewerInput.mk (Some lease_secret) 0)
           (fresh lease_secret 15000000000) [Go; Go; Go]
           (calling lease_secret 15000000000 (VLease "lease/7"))
           (VLease "lease/7")).
  - reflexivity.
  - reflexivity.
  - reflexivity.
  - reflexivity.
Defined.

(** C9: when the remote call succeeds but the reply is nil, or, for the
    auth variant, carries no auth data, the helper returns
    [ErrRenewerNoSecretData] and no remote call follows. *)
Theorem no_data_is_outcome
        (c : Client) (i : RenewerInput.t) (r : Renewer.t)
        (ins : list Input) (s : State) (v : Variant) (res : CallResult) :
  NewRenewer c (Some i) = (Some r, None) ->
  run (start r) ins = Some s ->
  pc s = InCall v ->
  err res = None ->
  (renewal res = None \/
   exists token secret,
     v = VAuth token /\ renewal res = Some secret /\
     Secret.Auth secret = None) ->
  exists s',
    step s (Reply res) = Some s' /\
    ends_with s' (Some ErrRenewerNoSecretData) /\
    calls s' = calls s.
Proof.
  intros Hnew Hrun Hpc Herr Hno.
  pose proof (execution_wf c i r ins s Hnew Hrun) as Hwf.
  destruct (step_reply s v res Hwf Hpc)
    as (s' & Hstep & Hwf' & Hca & _ & Hpc' & _).
  rewrite Herr in Hpc'.
  assert (Hrep : reported v res = None).
  { unfold reported.
    destruct Hno as [H|(token & secret & Hv & Hs & Ha)].
    - rewrite H. reflexivity.
    - rewrite Hs, Hv, Ha. reflexivity. }
  rewrite Hrep in Hpc'.
  exists s'. split; [assumption|]. split; [|assumption].
  apply returned_ends; assumption.
Qed.

Lemma no_data_is_outcome_witness :
  exists s',
    step (calling token_secret 15000000000 (VAuth "s.token"))
         (Reply (mkCallResult (Some (Secret.mk "" 0 false None)) None))
    = Some s' /\
    ends_with s' (Some ErrRenewerNoSecretData) /\
    calls s' = calls (calling token_secret 15000000000 (VAuth "s.token")).
Proof.
  apply (no_data_is_outcome
           vault (RenewerInput.mk (Some token_secret) 0)
           (fresh token_secret 15000000000) [Go; Go; Go]
           (calling token_secret 15000000000 (VAuth "s.token"))
           (VAuth "s.token")).
  - reflexivity.
  - reflexivity.
  - reflexivity.
  - reflexivity.
  - right. exists "s.token"%string, (Secret.mk "" 0 false None).
    repeat split; reflexivity.
Defined.

(** C8: when a reply reports renewable = false, the helper returns
    [ErrRenewerNotRenewable], whatever the earlier replies of the same
    run said, and no remote call follows. *)
Theorem reply_not_renewable
        (c : Client) (i : RenewerInput.t) (r : Renewer.t)
        (ins : list Input) (s : State) (v : Variant)
        (res : CallResult) (L : Z) :
  NewRenewer c (Some i) = (Some r, None) ->
  run (start r) ins = Some s ->
  pc s = InCall v ->
  err res = None ->
  reported v res = Some (false, L) ->
  exists s',
    step s (Reply res) = Some s' /\
    ends_with s' (Some ErrRenewerNotRenewable) /\
    calls s' = calls s.
Proof.
  intros Hnew Hrun Hpc Herr Hrep.
  pose proof (execution_wf c i r ins s Hnew Hrun) as Hwf.
  destruct (step_reply s v res Hwf Hpc)
    as (s' & Hstep & Hwf' & Hca & _ & Hpc' & _).
  rewrite Herr, Hrep in Hpc'.
  exists s'. split; [assumption|]. split; [|assumption].
  apply returned_ends; assumption.
Qed.

Lemma reply_not_renewable_witness :
  exists s',
    step (after (fresh lease_secret 15000000000)
                [Go; Go; Go; Reply (lease_reply true 3600); TimerFires; Go; Go])
         (Reply (lease_reply false 3600))
    = Some s' /\
    ends_with s' (Some ErrRenewerNotRenewable) /\
    calls s' = [EvSysRenew "lease/7" 0; EvSysRenew "lease/7" 0].
Proof.
  apply (reply_not_renewable
           vault (RenewerInput.mk (Some lease_secret) 0)
           (fresh lease_secret 15000000000)
           [Go; Go; Go; Reply (lease_reply true 3600); TimerFires; Go; Go]
           (after (fresh lease_secret 15000000000)
                  [Go; Go; Go; Reply (lease_reply true 3600); TimerFires; Go; Go])
           (VLease "lease/7") (lease_reply false 3600) 3600).
  - reflexivity.
  - reflexivity.
  - reflexivity.
  - reflexivity.
  - reflexivity.
Defined.

(** C2, amended: when a reply carries renewal data, reports
    renewable = true and a lease duration of L seconds that is at most the
    grace (L within the 9223372036 seconds that fit [time.Duration]), the
    helper returns nil and no remote call follows. *)
Theorem within_grace_returns_nil
        (c : Client) (i : RenewerInput.t) (r : Renewer.t)
        (ins : list Input) (s : State) (v : Variant)
        (res : CallResult) (L : Z) :
  NewRenewer c (Some i) = (Some r, None) ->
  run (start r) ins = Some s ->
  pc s = InCall v ->
  err res = None ->
  reported v res = Some (true, L) ->
  -9223372036 <= L <= 9223372036 ->
  L * 1000000000 <= Renewer.grace r ->
  exists s',
    step s (Reply res) = Some s' /\
    ends_with s' None /\
    calls s' = calls s.
Proof.
  intros Hnew Hrun Hpc Herr Hrep Hrange Hle.
  pose proof (execution_wf c i r ins s Hnew Hrun) as Hwf.
  pose proof (run_grace ins _ _ Hrun) as Hg. simpl in Hg.
  destruct (step_reply s v res Hwf Hpc)
    as (s' & Hstep & Hwf' & Hca & _ & Hpc' & _).
  rewrite Herr, Hrep, (seconds_exact L Hrange), Hg in Hpc'.
  destruct (Z.leb_spec (L * 1000000000) (Renewer.grace r)); [|lia].
  exists s'. split; [assumption|]. split; [|assumption].
  apply returned_ends; assumption.
Qed.

Lemma within_grace_returns_nil_witness :
  exists s',
    step (after (fresh token_secret 10000000000)
                [Go; Go; Go; Reply (token_reply true 100); TimerFires; Go; Go])
         (Reply (token_reply true 8))
    = Some s' /\
    ends_with s' None /\
    calls s' = [EvRenewTokenAsSelf "s.token" 0; EvRenewTokenAsSelf "s.token" 0].
Proof.
  apply (within_grace_returns_nil
           vault (RenewerInput.mk (Some token_secret) 10000000000)
           (fresh token_secret 10000000000)
           [Go; Go; Go; Reply (token_reply true 100); TimerFires; Go; Go]
           (after (fresh token_secret 10000000000)
                  [Go; Go; Go; Reply (token_reply true 100); TimerFires; Go; Go])
           (VAuth "s.token") (token_reply true 8) 8).
  - reflexivity.
  - reflexivity.
  - reflexivity.
  - reflexivity.
  - reflexivity.
  - lia.
  - simpl. lia.
Defined.

(** C2 as stated fails: a reply whose lease duration (5 s) is below the
    grace (15 s) but which reports renewable = false ends the run with
    [ErrRenewerNotRenewable], not with nil. *)
Lemma within_grace_but_not_renewable :
  reported (VLease "lease/7") (lease_reply false 5) = Some (false, 5) /\
  5 * 1000000000 <= Renewer.grace (fresh lease_secret 15000000000) /\
  NewRenewer vault (Some (RenewerInput.mk (Some lease_secret) 0))
  = (Some (fresh lease_secret 15000000000), None) /\
  exists s,
    run (start (fresh lease_secret 15000000000))
        [Go; Go; Go; Reply (lease_reply false 5)] = Some s /\
    pc s = Returned (Some ErrRenewerNotRenewable) /\
    pc s <> Returned None.
Proof.
  split; [reflexivity|]. split; [simpl; lia|]. split; [reflexivity|].
  eexists. split; [reflexivity|]. split; [reflexivity|].
  simpl. discriminate.
Qed.

(** ** Negative grace *)

(** C10, amended: for an input with a strictly negative grace,
    construction fails with [ErrRenewerMissingSecret] when the input has
    no secret, and otherwise succeeds with the grace unchanged; with that
    grace no reply whose lease duration L is non-negative and at most
    9223372036 seconds (the range in which L seconds fit
    [time.Duration]) makes the helper return nil: a renewable reply leads
    to the final [select]. *)
Theorem negative_grace_kept (c : Client) (secret : Secret.t) (g : Z) :
  g < 0 ->
  NewRenewer c (Some (RenewerInput.mk None g))
  = (None, Some ErrRenewerMissingSecret) /\
  exists r,
    NewRenewer c (Some (RenewerInput.mk (Some secret) g)) = (Some r, None) /\
    Renewer.grace r = g /\
    forall ins s v res b L,
      run (start r) ins = Some s ->
      pc s = InCall v ->
      reported v res = Some (b, L) ->
      0 <= L <= 9223372036 ->
      exists s',
        step s (Reply res) = Some s' /\
        pc s' <> Returned None /\
        (err res = None -> b = true -> pc s' = AtSelect v (sleep_of L)).
Proof.
  intros Hneg.
  assert (Hnew : NewRenewer c (Some (RenewerInput.mk (Some secret) g))
                 = (Some (Renewer.mk c secret g (make 1) (make 5) false
                                     (make 1)), None)).
  { unfold NewRenewer. simpl.
    destruct (Z.eqb_spec g 0); [lia | reflexivity]. }
  split; [reflexivity|].
  eexists. split; [exact Hnew|]. split; [reflexivity|].
  intros ins s v res b L Hrun Hpc Hrep Hrange.
  pose proof (execution_wf _ _ _ ins s Hnew Hrun) as Hwf.
  pose proof (run_grace ins _ _ Hrun) as Hg. simpl in Hg.
  destruct (step_reply s v res Hwf Hpc)
    as (s' & Hstep & _ & _ & _ & Hpc' & _).
  rewrite Hrep, seconds_exact, Hg in Hpc' by lia.
  exists s'. split; [assumption|].
  destruct (Z.leb_spec (L * 1000000000) g); [lia|].
  destruct (err res) as [e|].
  - split; [rewrite Hpc'; discriminate|]. intros He; discriminate.
  - destruct b.
    + split; [rewrite Hpc'; discriminate|]. intros _ _. assumption.
    + split; [rewrite Hpc'; discriminate|]. intros _ Hb; discriminate.
Qed.

Lemma negative_grace_kept_witness :
  NewRenewer vault (Some (RenewerInput.mk None (-5000000000)))
  = (None, Some ErrRenewerMissingSecret) /\
  exists r,
    NewRenewer vault (Some (RenewerInput.mk (Some lease_secret) (-5000000000)))
    = (Some r, None) /\
    Renewer.grace r = -5000000000 /\
    forall ins s v res b L,
      run (start r) ins = Some s ->
      pc s = InCall v ->
      reported v res = Some (b, L) ->
      0 <= L <= 9223372036 ->
      exists s',
        step s (Reply res) = Some s' /\
        pc s' <> Returned None /\
        (err res = None -> b = true -> pc s' = AtSelect v (sleep_of L)).
Proof.
  apply (negative_grace_kept vault lease_secret (-5000000000)).
  lia.
Defined.

(** C10 as stated fails: an input with a grace of -1 ns and no secret
    is refused; and with a grace of -1 ns, a renewable reply of
    9223372037 seconds, a non-negative lease duration, wraps to a negative
    [time.Duration] and the helper returns nil. *)
Lemma negative_grace_exit_on_overflow :
  NewRenewer vault (Some (RenewerInput.mk None (-1)))
  = (None, Some ErrRenewerMissingSecret) /\
  NewRenewer vault (Some (RenewerInput.mk (Some lease_secret) (-1)))
  = (Some (fresh lease_secret (-1)), None) /\
  Renewer.grace (fresh lease_secret (-1)) < 0 /\
  reported (VLease "lease/7") (lease_reply true 9223372037)
  = Some (true, 9223372037) /\
  0 <= 9223372037 /\
  exists s,
    run (start (fresh lease_secret (-1)))
        [Go; Go; Go; Reply (lease_reply true 9223372037)] = Some s /\
    pc s = Returned None.
Proof.
  split; [reflexivity|].
  split; [reflexivity|]. split; [simpl; lia|]. split; [reflexivity|].
  split; [lia|].
  eexists. split; reflexivity.
Qed.

(** ** The sleep between two renewals *)

(** C1 fails on the code: with a grace of 10 s and a reply of 100 s, in
    both variants, the loop reaches its final [select] with
    [time.After(-5340232221128654848)], a timer that is due at once, not
    with the 50 s that half the lease duration would be; and a reply of
    2 s over a grace of 1 s arms a timer of 10^18 ns, not of 1 s. *)
Theorem sleep_is_not_half_lifetime :
  (exists s,
      run (start (fresh token_secret 10000000000))
          [Go; Go; Go; Reply (token_reply true 100)] = Some s /\
      pc s = AtSelect (VAuth "s.token") (-5340232221128654848)) /\
  (exists s,
      run (start (fresh lease_secret 10000000000))
          [Go; Go; Go; Reply (lease_reply true 100)] = Some s /\
      pc s = AtSelect (VLease "lease/7") (-5340232221128654848)) /\
  -5340232221128654848 <> 50 * time.Second /\
  (exists s,
      run (start (fresh lease_secret 1000000000))
          [Go; Go; Go; Reply (lease_reply true 2)] = Some s /\
      pc s = AtSelect (VLease "lease/7") 1000000000000000000) /\
  1000000000000000000 <> 1 * time.Second.
Proof.
  split; [eexists; split; reflexivity|].
  split; [eexists; split; reflexivity|].
  split; [unfold time.Second, time.Nanosecond; lia|].
  split; [eexists; split; reflexivity|].
  unfold time.Second, time.Nanosecond; lia.
Qed.

(** ** The done channel *)

(** C4 fails on the code: [NewRenewer] makes [doneCh] with one free slot,
    and a run in which nobody ever receives from [DoneCh] still gets
    through the send at the end of [Renew]: the outcome sits in the
    buffer and [Renew] has returned. *)
Theorem done_send_does_not_wait :
  NewRenewer vault (Some (RenewerInput.mk (Some (Secret.mk "" 60 true None)) 0))
  = (Some (fresh (Secret.mk "" 60 true None) 15000000000), None) /\
  cap (DoneCh (fresh (Secret.mk "" 60 true None) 15000000000)) = 1%nat /\
  buf (DoneCh (fresh (Secret.mk "" 60 true None) 15000000000)) = [] /\
  exists s,
    run (start (fresh (Secret.mk "" 60 true None) 15000000000)) [Go; Go]
    = Some s /\
    pc s = Finished /\
    buf (DoneCh (rn s)) = [Some ErrRenewerNotRenewable].
Proof.
  split; [reflexivity|]. split; [reflexivity|]. split; [reflexivity|].
  eexists. split; [reflexivity|]. split; reflexivity.
Qed.

(** In every execution the send at the end of [Renew] goes through at
    once, whatever the outcome, with no receiver. *)
Lemma Renew_never_waits_for_reader
      (c : Client) (i : RenewerInput.t) (r : Renewer.t)
      (ins : list Input) (s : State) (outcome : option error) :
  NewRenewer c (Some i) = (Some r, None) ->
  run (start r) ins = Some s ->
  pc s = Returned outcome ->
  exists s', step s Go = Some s' /\ pc s' = Finished.
Proof.
  intros Hnew Hrun Hpc.
  pose proof (execution_wf c i r ins s Hnew Hrun) as Hwf.
  destruct (returned_ends s outcome Hwf Hpc) as (_ & (s' & H1 & H2 & _) & _).
  exists s'. split; assumption.
Qed.

(** ** Stop *)




(** The check at the top of the loop when [stopCh] is closed. *)
Lemma check_when_closed (s : State) (v : Variant) :
  wf s ->
  closed (Renewer.stopCh (rn s)) = true ->
  pc s = AtCheck v ->
  exists s', step s Go = Some s' /\ wf s' /\ pc s' = Returned None /\
             trace s' = trace s.
Proof.
  intros Hwf Hcl Hpc.
  destruct (step_wf s Go Hwf) as (s' & Hstep & Hwf').
  exists s'. split; [assumption|]. split; [assumption|].
  simpl in Hstep. rewrite Hpc in Hstep.
  inversion Hstep; subst s'; clear Hstep.
  unfold check_stop, chan_try_recv. rewrite Hcl.
  destruct (buf (Renewer.stopCh (rn s))); split; reflexivity.
Qed.




(** * Further properties *)

(** ** The stronger invariant *)

Ltac obs_facts :=
  unfold closes, calls, ticks, dones in *; simpl in *;
  rewrite ?filter_app, ?length_app; simpl;
  rewrite ?app_nil_r, ?Nat.add_0_r.

Lemma run_snoc (ins : list Input) (i : Input) :
  forall s,
    run s (ins ++ [i]) =
    match run s ins with
    | None => None
    | Some s' => step s' i
    end.
Proof.
  induction ins as [|j ins IH]; intros s; simpl.
  - destruct (step s i); reflexivity.
  - destruct (step s j); [apply IH | reflexivity].
Qed.

(** What one pass through a loop body does to the renewer and the
    trace: nothing on an error; otherwise one tick, taken when the buffer
    of [tickCh] has room and dropped when it is full. *)
Lemma reply_of_shape (v : Variant) (r r' : Renewer.t) (res : CallResult)
      (evs : list Event) (k : Ctl) :
  reply_of v r res = Some (r', evs, k) ->
  match err res with
  | Some _ => r' = r /\ evs = []
  | None =>
    evs = [EvTick (length (buf (Renewer.tickCh r))
                   <? cap (Renewer.tickCh r))%nat] /\
    r' = Renewer.with_tickCh r
           (if (length (buf (Renewer.tickCh r))
                <? cap (Renewer.tickCh r))%nat
            then mkchan (cap (Renewer.tickCh r))
                        (buf (Renewer.tickCh r) ++ [tt]) false
            else Renewer.tickCh r)
  end.
Proof.
  destruct v; simpl; unfold renewAuth_reply, renewLease_reply, tick,
    chan_try_send;
    (destruct (err res);
     [intros H; inversion H; subst; split; reflexivity|]);
    (destruct (closed (Renewer.tickCh r)); [discriminate|]);
    destruct (_ <? _)%nat; intros H; inversion H; subst;
    split; reflexivity.
Qed.

Lemma inv_start (c : Client) (i : RenewerInput.t) (r : Renewer.t) :
  NewRenewer c (Some i) = (Some r, None) ->
  inv (Renewer.secret r) (start r).
Proof.
  unfold NewRenewer. destruct (RenewerInput.Secret i); intros H;
    inversion H; subst; clear H.
  constructor; simpl; try reflexivity; try lia.
  - constructor.
  - intros v Hv. discriminate.
Qed.

Lemma Renew_enter_variant (r : Renewer.t) (v : Variant) :
  in_loop (Renew_enter r) = Some v -> v = variant_of (Renewer.secret r).
Proof.
  unfold Renew_enter, variant_of.
  destruct (Secret.Auth (Renewer.secret r)) as [auth|].
  - destruct (renewAuth_enter auth); simpl; intros H; inversion H;
      reflexivity.
  - destruct (renewLease_enter (Renewer.secret r)); simpl; intros H;
      inversion H; reflexivity.
Qed.

Lemma Renew_enter_no_call (r : Renewer.t) : in_call (Renew_enter r) = 0%nat.
Proof.
  unfold Renew_enter.
  destruct (Secret.Auth (Renewer.secret r)) as [auth|].
  - destruct (renewAuth_enter auth); reflexivity.
  - destruct (renewLease_enter (Renewer.secret r)); reflexivity.
Qed.

Lemma Renew_enter_not_finished (r : Renewer.t) : Renew_enter r <> Finished.
Proof.
  unfold Renew_enter.
  destruct (Secret.Auth (Renewer.secret r)) as [auth|].
  - destruct (renewAuth_enter auth); discriminate.
  - destruct (renewLease_enter (Renewer.secret r)); discriminate.
Qed.

Ltac inv_fin :=
  constructor; simpl in *; auto; obs_facts; auto; try lia;
  try (intros ? Hin; inversion Hin; subst; auto; fail);
  try (rewrite Forall_app; split; auto; fail).

Lemma step_inv (secret : Secret.t) (s s' : State) (i : Input) :
  inv secret s -> step s i = Some s' -> inv secret s'.
Proof.
  intros Hinv Hstep.
  pose proof Hinv as [Hsec Hcap Hlen Hdc Hdl Hsb Hd Hc Hv Ht].
  subst secret.
  destruct i; simpl in Hstep.
  - (* CallStop *)
    unfold Stop, chan_close in Hstep.
    destruct (negb (Renewer.stopped (rn s)));
      [destruct (closed (Renewer.stopCh (rn s))); [discriminate|]|];
      inversion Hstep; subst s'; clear Hstep; inv_fin.
  - (* RecvTick *)
    unfold chan_try_recv in Hstep.
    destruct (buf (Renewer.tickCh (rn s))) eqn:Hb;
      [destruct (closed (Renewer.tickCh (rn s)))|];
      inversion Hstep; subst s'; clear Hstep; try assumption;
      constructor; simpl in *; rewrite ?Hb; simpl; auto; try lia.
  - (* RecvDone *)
    unfold chan_try_recv in Hstep.
    destruct (buf (Renewer.doneCh (rn s))) eqn:Hb;
      [destruct (closed (Renewer.doneCh (rn s)))|];
      inversion Hstep; subst s'; clear Hstep; try assumption;
      constructor; simpl in *; rewrite ?Hb; simpl; auto; try lia.
  - (* Go *)
    destruct (pc s) eqn:Hpc;
      try (inversion Hstep; subst s'; assumption).
    + inversion Hstep; subst s'; clear Hstep.
      constructor; simpl; auto.
      * pose proof (Renew_enter_not_finished (rn s)).
        obs_facts. destruct (Renew_enter (rn s)); congruence.
      * intros v Hin. apply Renew_enter_variant in Hin. congruence.
      * rewrite Renew_enter_no_call. obs_facts. lia.
    + inversion Hstep; subst s'; clear Hstep.
      unfold check_stop, chan_try_recv. rewrite Hsb.
      assert (Hvv : v = variant_of (Renewer.secret (rn s)))
        by (apply Hv; reflexivity).
      rewrite <- Hvv in Hc.
      destruct (closed (Renewer.stopCh (rn s))); destruct v;
        constructor; simpl in *; try rewrite <- Hvv; auto; obs_facts;
        auto; try lia;
        try (intros ? Hin; inversion Hin; subst; auto; fail);
        try (rewrite Forall_app; split; auto; fail).
    + inversion Hstep; subst s'; clear Hstep. unfold issue_call.
      assert (Hvv : v = variant_of (Renewer.secret (rn s)))
        by (apply Hv; reflexivity).
      rewrite <- Hvv in Hc.
      destruct v;
        constructor; simpl in *; try rewrite <- Hvv; auto; obs_facts;
        auto; try lia;
        try (intros ? Hin; inversion Hin; subst; auto; fail);
        try (rewrite Forall_app; split; auto; fail).
    + unfold send_done in Hstep. cbv zeta in Hstep.
      destruct (closed (Renewer.doneCh (rn s))); [discriminate|].
      destruct (_ <? _)%nat eqn:Hlt; inversion Hstep; subst s';
        clear Hstep; [|assumption].
      apply Nat.ltb_lt in Hlt. inv_fin.
  - (* Reply *)
    destruct (pc s) eqn:Hpc;
      try (inversion Hstep; subst s'; assumption).
    destruct (reply_of v (rn s) res) as [[[r' evs] k]|] eqn:Hr;
      [|discriminate].
    pose proof (reply_of_shape _ _ _ _ _ _ Hr) as Hshape.
    destruct (err res).
    + destruct Hshape as (-> & ->).
      destruct k; inversion Hstep; subst s'; clear Hstep; inv_fin.
    + destruct Hshape as (-> & ->).
      destruct (_ <? _)%nat eqn:Hlt;
        [apply Nat.ltb_lt in Hlt|];
        destruct k; inversion Hstep; subst s'; clear Hstep; inv_fin.
  - (* TimerFires *)
    destruct (pc s) eqn:Hpc;
      inversion Hstep; subst s'; clear Hstep; try assumption.
    inv_fin.
  - (* StopObserved *)
    destruct (pc s) eqn:Hpc;
      try (inversion Hstep; subst s'; assumption).
    unfold chan_try_recv in Hstep. rewrite Hsb in Hstep.
    destruct (closed (Renewer.stopCh (rn s)));
      inversion Hstep; subst s'; clear Hstep; [|assumption].
    inv_fin.
Qed.

Lemma run_inv (secret : Secret.t) (ins : list Input) :
  forall s s', inv secret s -> run s ins = Some s' -> inv secret s'.
Proof.
  induction ins as [|i ins IH]; intros s s' Hinv Hrun; simpl in Hrun.
  - inversion Hrun; subst. assumption.
  - destruct (step s i) as [s1|] eqn:Hstep; [|discriminate].
    apply (IH s1 s'); [|assumption].
    apply (step_inv secret s s1 i); assumption.
Qed.

Lemma execution_inv (c : Client) (i : RenewerInput.t) (r : Renewer.t)
      (ins : list Input) (s : State) :
  NewRenewer c (Some i) = (Some r, None) ->
  run (start r) ins = Some s ->
  inv (Renewer.secret r) s.
Proof.
  intros Hnew Hrun.
  apply (run_inv _ ins (start r) s); [|assumption].
  apply (inv_start c i r Hnew).
Qed.

Lemma run_immutable (ins : list Input) :
  forall s s',
    run s ins = Some s' ->
    Renewer.client (rn s') = Renewer.client (rn s) /\
    Renewer.secret (rn s') = Renewer.secret (rn s) /\
    Renewer.grace (rn s') = Renewer.grace (rn s).
Proof.
  induction ins as [|i ins IH]; intros s s' Hrun; simpl in Hrun.
  - inversion Hrun; subst. auto.
  - destruct (step s i) as [s1|] eqn:Hstep; [|discriminate].
    destruct (step_immutable s s1 i Hstep) as (Hc & Hs & Hg).
    destruct (IH s1 s' Hrun) as (Hc' & Hs' & Hg').
    repeat split; congruence.
Qed.

(** ** The channels *)

(** X1: in every execution the tick channel keeps its five slots and
    never holds more than five ticks. *)
Theorem tick_buffer_bounded
        (c : Client) (i : RenewerInput.t) (r : Renewer.t)
        (ins : list Input) (s : State) :
  NewRenewer c (Some i) = (Some r, None) ->
  run (start r) ins = Some s ->
  cap (TickCh (rn s)) = 5%nat /\
  (length (buf (TickCh (rn s))) <= 5)%nat.
Proof.
  intros Hnew Hrun.
  destruct (execution_inv c i r ins s Hnew Hrun).
  split; assumption.
Qed.

Lemma tick_buffer_bounded_witness :
  cap (TickCh (rn (after (fresh lease_secret 1000000000%Z)
                         (Go :: rounds 7 (lease_reply true 60%Z))))) = 5%nat /\
  (length (buf (TickCh (rn (after (fresh lease_secret 1000000000%Z)
                                  (Go :: rounds 7 (lease_reply true 60%Z))))))
   <= 5)%nat.
Proof.
  apply (tick_buffer_bounded
           vault (RenewerInput.mk (Some lease_secret) 1000000000)
           (fresh lease_secret 1000000000%Z)
           (Go :: rounds 7 (lease_reply true 60%Z))).
  - reflexivity.
  - reflexivity.
Defined.

(** X2: in every execution [Renew] sends on the done channel at most
    once: nothing is sent and the buffer is empty until [Renew] has
    returned, exactly one value has been sent once it has, and the buffer
    never holds more than that one value. *)
Theorem done_written_once
        (c : Client) (i : RenewerInput.t) (r : Renewer.t)
        (ins : list Input) (s : State) :
  NewRenewer c (Some i) = (Some r, None) ->
  run (start r) ins = Some s ->
  (length (buf (DoneCh (rn s))) <= 1)%nat /\
  (pc s <> Finished -> dones s = [] /\ buf (DoneCh (rn s)) = []) /\
  (pc s = Finished -> length (dones s) = 1%nat).
Proof.
  intros Hnew Hrun.
  pose proof (execution_wf c i r ins s Hnew Hrun) as Hwf.
  destruct (execution_inv c i r ins s Hnew Hrun)
    as [_ _ _ _ Hdl _ Hd _ _ _].
  split; [assumption|]. split.
  - intros Hne. split; [|apply (wf_done_empty s Hwf Hne)].
    apply length_zero_iff_nil. rewrite Hd.
    destruct (pc s); try reflexivity. exfalso. apply Hne. reflexivity.
  - intros Hf. rewrite Hd, Hf. reflexivity.
Qed.

Lemma done_written_once_witness :
  (length (buf (DoneCh (rn (after (fresh lease_secret 15000000000%Z)
      [Go; Go; Go; Reply (lease_reply true 5%Z); Go; RecvDone; Go])))) <= 1)%nat /\
  (pc (after (fresh lease_secret 15000000000%Z)
        [Go; Go; Go; Reply (lease_reply true 5%Z); Go; RecvDone; Go]) <> Finished ->
   dones (after (fresh lease_secret 15000000000%Z)
        [Go; Go; Go; Reply (lease_reply true 5%Z); Go; RecvDone; Go]) = [] /\
   buf (DoneCh (rn (after (fresh lease_secret 15000000000%Z)
        [Go; Go; Go; Reply (lease_reply true 5%Z); Go; RecvDone; Go]))) = []) /\
  (pc (after (fresh lease_secret 15000000000%Z)
        [Go; Go; Go; Reply (lease_reply true 5%Z); Go; RecvDone; Go]) = Finished ->
   length (dones (after (fresh lease_secret 15000000000%Z)
        [Go; Go; Go; Reply (lease_reply true 5%Z); Go; RecvDone; Go])) = 1%nat).
Proof.
  apply (done_written_once
           vault (RenewerInput.mk (Some lease_secret) 0)
           (fresh lease_secret 15000000000%Z)
           [Go; Go; Go; Reply (lease_reply true 5%Z); Go; RecvDone; Go]).
  - reflexivity.
  - reflexivity.
Defined.

(** X3: every reply without an error, whatever it carries (even a nil
    renewal), makes the loop try exactly one tick, without waiting: the
    tick is taken when fewer than five are buffered and dropped when the
    buffer is full. *)
Theorem tick_on_every_success
        (c : Client) (i : RenewerInput.t) (r : Renewer.t)
        (ins : list Input) (s : State) (v : Variant) (res : CallResult) :
  NewRenewer c (Some i) = (Some r, None) ->
  run (start r) ins = Some s ->
  pc s = InCall v ->
  err res = None ->
  exists s',
    step s (Reply res) = Some s' /\
    ticks s' =
    ticks s ++ [EvTick (length (buf (TickCh (rn s))) <? 5)%nat] /\
    length (buf (TickCh (rn s'))) =
    Nat.min (S (length (buf (TickCh (rn s))))) 5.
Proof.
  intros Hnew Hrun Hpc Herr.
  pose proof (execution_wf c i r ins s Hnew Hrun) as Hwf.
  destruct (execution_inv c i r ins s Hnew Hrun)
    as [_ Hcap Hlen _ _ _ _ _ _ _].
  destruct (step_wf s (Reply res) Hwf) as (s' & Hstep & _).
  exists s'. split; [assumption|].
  simpl in Hstep. rewrite Hpc in Hstep.
  destruct (reply_of v (rn s) res) as [[[r' evs] k]|] eqn:Hr;
    [|discriminate].
  pose proof (reply_of_shape _ _ _ _ _ _ Hr) as Hshape.
  rewrite Herr, Hcap in Hshape. destruct Hshape as (Hevs & Hr').
  clear Hr Hnew Hrun. subst evs r'. unfold TickCh, ticks.
  destruct (length (buf (Renewer.tickCh (rn s))) <? 5)%nat eqn:Hlt;
    [apply Nat.ltb_lt in Hlt | apply Nat.ltb_ge in Hlt];
    destruct k; inversion Hstep; subst s'; clear Hstep; simpl;
    rewrite ?filter_app, ?length_app; simpl; rewrite ?app_nil_r;
    (split; [reflexivity|]); lia.
Qed.

Lemma tick_on_every_success_witness :
  exists s',
    step (after (fresh lease_secret 1000000000)
                (Go :: rounds 5 (lease_reply true 60) ++ [Go; Go]))
         (Reply (mkCallResult None None)) = Some s' /\
    ticks s' =
    ticks (after (fresh lease_secret 1000000000)
                 (Go :: rounds 5 (lease_reply true 60) ++ [Go; Go]))
    ++ [EvTick (length (buf (TickCh (rn
          (after (fresh lease_secret 1000000000%Z)
                 (Go :: rounds 5 (lease_reply true 60%Z) ++ [Go; Go])))))
        <? 5)%nat] /\
    length (buf (TickCh (rn s'))) =
    Nat.min (S (length (buf (TickCh (rn
          (after (fresh lease_secret 1000000000)
                 (Go :: rounds 5 (lease_reply true 60) ++ [Go; Go]))))))) 5.
Proof.
  apply (tick_on_every_success
           vault (RenewerInput.mk (Some lease_secret) 1000000000)
           (fresh lease_secret 1000000000)
           (Go :: rounds 5 (lease_reply true 60) ++ [Go; Go])
           (after (fresh lease_secret 1000000000)
                  (Go :: rounds 5 (lease_reply true 60) ++ [Go; Go]))
           (VLease "lease/7")).
  - reflexivity.
  - reflexivity.
  - reflexivity.
  - reflexivity.
Defined.

(** ** Remote calls *)

(** X4: in every execution each tick follows a remote call that has
    returned: the ticks tried so far, together with the call in flight
    if there is one, never outnumber the calls issued. *)
Theorem ticks_follow_calls
        (c : Client) (i : RenewerInput.t) (r : Renewer.t)
        (ins : list Input) (s : State) :
  NewRenewer c (Some i) = (Some r, None) ->
  run (start r) ins = Some s ->
  (length (ticks s) + in_call (pc s) <= length (calls s))%nat.
Proof.
  intros Hnew Hrun.
  apply (inv_ticks _ _ (execution_inv c i r ins s Hnew Hrun)).
Qed.

Lemma ticks_follow_calls_witness :
  (length (ticks (after (fresh token_secret 1000000000%Z)
                        (Go :: rounds 3 (token_reply true 60%Z) ++ [Go; Go])))
   + in_call (pc (after (fresh token_secret 1000000000%Z)
                        (Go :: rounds 3 (token_reply true 60%Z) ++ [Go; Go])))
   <= length (calls (after (fresh token_secret 1000000000%Z)
                        (Go :: rounds 3 (token_reply true 60%Z) ++ [Go; Go]))))%nat.
Proof.
  apply (ticks_follow_calls
           vault (RenewerInput.mk (Some token_secret) 1000000000)
           (fresh token_secret 1000000000)
           (Go :: rounds 3 (token_reply true 60) ++ [Go; Go])).
  - reflexivity.
  - reflexivity.
Defined.

(** X5: every remote call of an execution is the one of the variant
    chosen at entry, with the identifier the credential had then and
    increment 0: [RenewTokenAsSelf] with the client token when the secret
    has auth data, [Sys().Renew] with the lease identifier otherwise. *)
Theorem calls_use_entry_identifier
        (c : Client) (i : RenewerInput.t) (r : Renewer.t)
        (ins : list Input) (s : State) :
  NewRenewer c (Some i) = (Some r, None) ->
  run (start r) ins = Some s ->
  (forall auth,
      Secret.Auth (Renewer.secret r) = Some auth ->
      Forall (fun e => e = EvRenewTokenAsSelf (SecretAuth.ClientToken auth) 0)
             (calls s)) /\
  (Secret.Auth (Renewer.secret r) = None ->
   Forall (fun e => e = EvSysRenew (Secret.LeaseID (Renewer.secret r)) 0)
          (calls s)).
Proof.
  intros Hnew Hrun.
  pose proof (inv_calls _ _ (execution_inv c i r ins s Hnew Hrun)) as Hc.
  unfold variant_of in Hc.
  split.
  - intros auth Ha. rewrite Ha in Hc. exact Hc.
  - intros Ha. rewrite Ha in Hc. exact Hc.
Qed.

Lemma calls_use_entry_identifier_witness :
  (forall auth,
      Secret.Auth (Renewer.secret (fresh token_secret 1000000000))
      = Some auth ->
      Forall (fun e => e = EvRenewTokenAsSelf (SecretAuth.ClientToken auth) 0)
             (calls (after (fresh token_secret 1000000000)
                           (Go :: rounds 3 (token_reply true 60))))) /\
  (Secret.Auth (Renewer.secret (fresh token_secret 1000000000)) = None ->
   Forall (fun e =>
             e = EvSysRenew
                   (Secret.LeaseID
                      (Renewer.secret (fresh token_secret 1000000000))) 0)
          (calls (after (fresh token_secret 1000000000)
                        (Go :: rounds 3 (token_reply true 60))))).
Proof.
  apply (calls_use_entry_identifier
           vault (RenewerInput.mk (Some token_secret) 1000000000)
           (fresh token_secret 1000000000)
           (Go :: rounds 3 (token_reply true 60))).
  - reflexivity.
  - reflexivity.
Defined.

(** X6: the client, the secret and the grace that [NewRenewer] stored are
    the ones the renewer has in every state of every execution. *)
Theorem renewer_fields_immutable
        (c : Client) (i : RenewerInput.t) (r : Renewer.t)
        (ins : list Input) (s : State) :
  NewRenewer c (Some i) = (Some r, None) ->
  run (start r) ins = Some s ->
  Renewer.client (rn s) = c /\
  (exists secret,
      RenewerInput.Secret i = Some secret /\
      Renewer.secret (rn s) = secret) /\
  Renewer.grace (rn s) =
  (if RenewerInput.Grace i =? 0 then 15000000000 else RenewerInput.Grace i).
Proof.
  intros Hnew Hrun.
  destruct (run_immutable ins _ _ Hrun) as (Hc & Hs & Hg). simpl in *.
  unfold NewRenewer in Hnew.
  destruct (RenewerInput.Secret i) as [secret|]; [|discriminate].
  inversion Hnew; subst r; clear Hnew. simpl in *.
  split; [assumption|]. split; [exists secret; split; auto|].
  rewrite Hg. destruct (RenewerInput.Grace i =? 0); reflexivity.
Qed.

Lemma renewer_fields_immutable_witness :
  Renewer.client (rn stopped_twice) = vault /\
  (exists secret,
      RenewerInput.Secret (RenewerInput.mk (Some token_secret) 0)
      = Some secret /\
      Renewer.secret (rn stopped_twice) = secret) /\
  Renewer.grace (rn stopped_twice) =
  (if RenewerInput.Grace (RenewerInput.mk (Some token_secret) 0) =? 0
   then 15000000000
   else RenewerInput.Grace (RenewerInput.mk (Some token_secret) 0)).
Proof.
  apply (renewer_fields_immutable
           vault (RenewerInput.mk (Some token_secret) 0)
           (fresh token_secret 15000000000)
           [Go; CallStop; RecvTick; CallStop]).
  - reflexivity.
  - reflexivity.
Defined.

(** ** Cancellation *)

(** The send at the end of [Renew]. *)
Lemma send_when_returned (s : State) (outcome : option error) :
  wf s ->
  pc s = Returned outcome ->
  exists s', step s Go = Some s' /\ wf s' /\ pc s' = Finished /\
             buf (DoneCh (rn s')) = [outcome].
Proof.
  intros Hwf Hpc.
  destruct (step_wf s Go Hwf) as (s' & Hstep & Hwf').
  exists s'. split; [assumption|]. split; [assumption|].
  destruct Hwf as [_ Hd _ _ Hcap He].
  simpl in Hstep. rewrite Hpc in Hstep.
  unfold send_done in Hstep. cbv zeta in Hstep.
  rewrite Hd, He, Hcap in Hstep by (rewrite Hpc; discriminate).
  simpl in Hstep. inversion Hstep; subst s'. split; reflexivity.
Qed.

Lemma Renew_enter_cases (r : Renewer.t) :
  Renew_enter r = Returned (Some ErrRenewerNotRenewable) \/
  Renew_enter r = AtCheck (variant_of (Renewer.secret r)).
Proof.
  unfold Renew_enter, variant_of, renewAuth_enter, renewLease_enter.
  destruct (Secret.Auth (Renewer.secret r)) as [auth|];
    destruct (_ || _); auto.
Qed.

Lemma Renew_enter_refused (r : Renewer.t) :
  not_renewable (Renewer.secret r) ->
  Renew_enter r = Returned (Some ErrRenewerNotRenewable).
Proof.
  unfold Renew_enter, not_renewable.
  destruct (Secret.Auth (Renewer.secret r)) as [auth|].
  - unfold renewAuth_enter.
    intros [H|H]; rewrite H; simpl; [reflexivity|].
    rewrite orb_true_r. reflexivity.
  - unfold renewLease_enter.
    intros [H|H]; rewrite H; simpl; [reflexivity|].
    rewrite orb_true_r. reflexivity.
Qed.

Lemma Renew_enter_admitted (r : Renewer.t) :
  renewable_credential (Renewer.secret r) ->
  Renew_enter r = AtCheck (variant_of (Renewer.secret r)).
Proof.
  unfold Renew_enter, renewable_credential, variant_of.
  destruct (Secret.Auth (Renewer.secret r)) as [auth|].
  - unfold renewAuth_enter. intros (Hr & Ht). rewrite Hr.
    apply String.eqb_neq in Ht. rewrite Ht. reflexivity.
  - unfold renewLease_enter. intros (Hr & Ht). rewrite Hr.
    apply String.eqb_neq in Ht. rewrite Ht. reflexivity.
Qed.

Lemma NewRenewer_open (c : Client) (i : RenewerInput.t) (r : Renewer.t) :
  NewRenewer c (Some i) = (Some r, None) ->
  Renewer.stopped r = false /\ closed (Renewer.stopCh r) = false.
Proof.
  unfold NewRenewer. destruct (RenewerInput.Secret i); intros H;
    inversion H; subst r; split; reflexivity.
Qed.

(** X7: when [Stop] is called before [Renew] starts, no execution ever
    issues a remote call or a tick, and the goroutine's first two steps
    end the run: for a credential that passes the entry test, with nil at
    the first check of the loop and no event but the close of [stopCh];
    for a credential that fails it, with [ErrRenewerNotRenewable]
    delivered on the done channel. *)
Theorem stop_before_start
        (c : Client) (i : RenewerInput.t) (r : Renewer.t) :
  NewRenewer c (Some i) = (Some r, None) ->
  (forall ins, exists s,
        run (start r) (CallStop :: ins) = Some s /\
        calls s = [] /\ ticks s = []) /\
  (renewable_credential (Renewer.secret r) ->
   exists s2,
     run (start r) [CallStop; Go; Go] = Some s2 /\
     ends_with s2 None /\
     trace s2 = [EvCloseStopCh]) /\
  (not_renewable (Renewer.secret r) ->
   exists s2,
     run (start r) [CallStop; Go; Go] = Some s2 /\
     pc s2 = Finished /\
     buf (DoneCh (rn s2)) = [Some ErrRenewerNotRenewable]).
Proof.
  intros Hnew.
  pose proof (wf_start c i r Hnew) as Hwf0.
  destruct (NewRenewer_open c i r Hnew) as (Hst0 & Hcl0).
  destruct (step_wf (start r) CallStop Hwf0) as (s1 & Hs1 & Hwf1).
  assert (Hs1' : s1 = mkState (rn s1) NotStarted [EvCloseStopCh]
                 /\ Renewer.secret (rn s1) = Renewer.secret r).
  { simpl in Hs1. unfold Stop, chan_close in Hs1.
    rewrite Hst0, Hcl0 in Hs1. simpl in Hs1.
    inversion Hs1; subst s1. split; reflexivity. }
  destruct Hs1' as (Hs1' & Hsec1).
  assert (Hpc1 : pc s1 = NotStarted) by (rewrite Hs1'; reflexivity).
  assert (Htr1 : trace s1 = [EvCloseStopCh]) by (rewrite Hs1'; reflexivity).
  assert (Hcl1 : closed (Renewer.stopCh (rn s1)) = true).
  { rewrite (wf_stop_flag s1 Hwf1).
    apply (step_stopped (start r) s1 CallStop Hs1). left. reflexivity. }
  destruct (step_wf s1 Go Hwf1) as (s2 & Hs2 & Hwf2).
  assert (Hs2' : pc s2 = Renew_enter (rn s1) /\ trace s2 = trace s1
                 /\ closed (Renewer.stopCh (rn s2)) = true).
  { simpl in Hs2. rewrite Hpc1 in Hs2. inversion Hs2; subst s2.
    repeat split; assumption. }
  destruct Hs2' as (Hpc2 & Htr2 & Hcl2).
  split; [|split].
  - intros ins.
    destruct (run_wf ins s1 Hwf1) as (s & Hrun & _).
    assert (Hfull : run (start r) (CallStop :: ins) = Some s)
      by (cbn [run]; rewrite Hs1; assumption).
    exists s. split; [assumption|].
    destruct (run_closed_stop ins s1 s Hcl1 Hrun) as (_ & Hz & _).
    rewrite Hpc1 in Hz. destruct (Hz eq_refl) as (_ & Hcalls).
    assert (Hc1 : calls s1 = [])
      by (unfold calls; rewrite Htr1; reflexivity).
    rewrite Hc1 in Hcalls. split; [assumption|].
    pose proof (inv_ticks _ _ (execution_inv c i r _ s Hnew Hfull)) as Ht.
    rewrite Hcalls in Ht. simpl in Ht.
    apply length_zero_iff_nil. lia.
  - intros Hok.
    assert (He : Renew_enter (rn s1)
                 = AtCheck (variant_of (Renewer.secret (rn s1))))
      by (apply Renew_enter_admitted; rewrite Hsec1; assumption).
    rewrite He in Hpc2.
    destruct (check_when_closed s2 _ Hwf2 Hcl2 Hpc2)
      as (s3 & Hs3 & Hwf3 & Hpc3 & Htr3).
    exists s3. cbn [run]. rewrite Hs1, Hs2, Hs3.
    split; [reflexivity|]. split.
    + apply returned_ends; assumption.
    + congruence.
  - intros Hno.
    assert (He : Renew_enter (rn s1)
                 = Returned (Some ErrRenewerNotRenewable))
      by (apply Renew_enter_refused; rewrite Hsec1; assumption).
    rewrite He in Hpc2.
    destruct (send_when_returned s2 _ Hwf2 Hpc2)
      as (s3 & Hs3 & _ & Hpc3 & Hb3).
    exists s3. cbn [run]. rewrite Hs1, Hs2, Hs3.
    split; [reflexivity|]. split; assumption.
Qed.

Lemma stop_before_start_witness :
  (forall ins, exists s,
        run (start (fresh lease_secret 15000000000)) (CallStop :: ins)
        = Some s /\
        calls s = [] /\ ticks s = []) /\
  (renewable_credential (Renewer.secret (fresh lease_secret 15000000000)) ->
   exists s2,
     run (start (fresh lease_secret 15000000000)) [CallStop; Go; Go]
     = Some s2 /\
     ends_with s2 None /\
     trace s2 = [EvCloseStopCh]) /\
  (not_renewable (Renewer.secret (fresh lease_secret 15000000000)) ->
   exists s2,
     run (start (fresh lease_secret 15000000000)) [CallStop; Go; Go]
     = Some s2 /\
     pc s2 = Finished /\
     buf (DoneCh (rn s2)) = [Some ErrRenewerNotRenewable]).
Proof.
  apply (stop_before_start vault (RenewerInput.mk (Some lease_secret) 0)).
  reflexivity.
Defined.

Lemma after_go (s s' : State) :
  closed (Renewer.stopCh (rn s)) = true ->
  step s Go = Some s' -> past_entry (pc s') = true.
Proof.
  intros Hcl. simpl. destruct (pc s) eqn:Hpc; intros H;
    try (inversion H; subst s'; rewrite Hpc; reflexivity).
  - inversion H; subst s'; simpl.
    destruct (Renew_enter_cases (rn s)) as [-> | ->]; reflexivity.
  - inversion H; subst s'. unfold check_stop, chan_try_recv.
    rewrite Hcl. destruct (buf (Renewer.stopCh (rn s))); reflexivity.
  - inversion H; subst s'. reflexivity.
  - unfold send_done in H. cbv zeta in H.
    destruct (closed (Renewer.doneCh (rn s))); [discriminate|].
    destruct (_ <? _)%nat; inversion H; subst s'; simpl;
      [|rewrite Hpc]; reflexivity.
Qed.

Lemma after_second_go (s s' : State) :
  closed (Renewer.stopCh (rn s)) = true ->
  past_entry (pc s) = true ->
  step s Go = Some s' -> in_call_or_later (pc s') = true.
Proof.
  intros Hcl. simpl. destruct (pc s) eqn:Hpc; intros Hp H;
    try discriminate;
    try (inversion H; subst s'; rewrite Hpc; reflexivity).
  - inversion H; subst s'. unfold check_stop, chan_try_recv.
    rewrite Hcl. destruct (buf (Renewer.stopCh (rn s))); reflexivity.
  - unfold send_done in H. cbv zeta in H.
    destruct (closed (Renewer.doneCh (rn s))); [discriminate|].
    destruct (_ <? _)%nat; inversion H; subst s'; simpl;
      [|rewrite Hpc]; reflexivity.
Qed.

Lemma after_reply (s s' : State) (res : CallResult) :
  in_call_or_later (pc s) = true ->
  step s (Reply res) = Some s' -> past_call (pc s') = true.
Proof.
  simpl. destruct (pc s) eqn:Hpc; intros Hp H; try discriminate;
    try (inversion H; subst s'; rewrite Hpc; reflexivity).
  destruct (reply_of v (rn s) res) as [[[r' evs] k]|]; [|discriminate].
  destruct k; inversion H; subst s'; reflexivity.
Qed.

Lemma after_timer (s s' : State) :
  past_call (pc s) = true ->
  step s TimerFires = Some s' -> at_check_or_done (pc s') = true.
Proof.
  simpl. destruct (pc s) eqn:Hpc; intros Hp H; try discriminate;
    inversion H; subst s'; try rewrite Hpc; reflexivity.
Qed.

Lemma after_last_go (s : State) :
  wf s ->
  closed (Renewer.stopCh (rn s)) = true ->
  at_check_or_done (pc s) = true ->
  exists s', step s Go = Some s' /\ terminated (pc s') = true.
Proof.
  intros Hwf Hcl Hp.
  destruct (pc s) eqn:Hpc; try discriminate.
  - destruct (check_when_closed s v Hwf Hcl Hpc) as (s' & H & _ & Hpc' & _).
    exists s'. rewrite Hpc'. split; [assumption | reflexivity].
  - destruct (send_when_returned s outcome Hwf Hpc)
      as (s' & H & _ & Hpc' & _).
    exists s'. rewrite Hpc'. split; [assumption | reflexivity].
  - exists s. simpl. rewrite Hpc. split; reflexivity.
Qed.

(** X8: once [Stop] has been called, the goroutine ends as soon as it is
    scheduled, whatever the remote call answers: after the inputs [Go],
    [Go], the reply, the timer and [Go] again the helper has returned.
    On the way it issues no remote call, except the single call of a
    goroutine that had passed its cancellation check before [Stop] ran
    and had not yet issued it. *)
Theorem stop_ends_the_loop
        (c : Client) (i : RenewerInput.t) (r : Renewer.t)
        (ins : list Input) (s : State) (res : CallResult) :
  NewRenewer c (Some i) = (Some r, None) ->
  run (start r) ins = Some s ->
  In CallStop ins ->
  exists s',
    run s [Go; Go; Reply res; TimerFires; Go] = Some s' /\
    terminated (pc s') = true /\
    (checked (pc s) = 0%nat -> calls s' = calls s) /\
    (length (calls s') <= length (calls s) + checked (pc s))%nat.
Proof.
  intros Hnew Hrun Hin.
  pose proof (execution_wf c i r ins s Hnew Hrun) as Hwf.
  assert (Hcl : closed (Renewer.stopCh (rn s)) = true).
  { rewrite (wf_stop_flag s Hwf).
    apply (run_stopped ins (start r) s Hrun). left. assumption. }
  destruct (step_wf s Go Hwf) as (s1 & H1 & Hwf1).
  destruct (step_wf s1 Go Hwf1) as (s2 & H2 & Hwf2).
  destruct (step_wf s2 (Reply res) Hwf2) as (s3 & H3 & Hwf3).
  destruct (step_wf s3 TimerFires Hwf3) as (s4 & H4 & Hwf4).
  destruct (step_closed_stop _ _ _ Hcl H1) as (Hcl1 & _).
  destruct (step_closed_stop _ _ _ Hcl1 H2) as (Hcl2 & _).
  destruct (step_closed_stop _ _ _ Hcl2 H3) as (Hcl3 & _).
  destruct (step_closed_stop _ _ _ Hcl3 H4) as (Hcl4 & _).
  pose proof (after_go _ _ Hcl H1) as Hp1.
  pose proof (after_second_go _ _ Hcl1 Hp1 H2) as Hp2.
  pose proof (after_reply _ _ _ Hp2 H3) as Hp3.
  pose proof (after_timer _ _ Hp3 H4) as Hp4.
  destruct (after_last_go s4 Hwf4 Hcl4 Hp4) as (s5 & H5 & Ht).
  assert (Hfull : run s [Go; Go; Reply res; TimerFires; Go] = Some s5)
    by (cbn [run]; rewrite H1, H2, H3, H4, H5; reflexivity).
  exists s5. split; [assumption|]. split; [assumption|].
  destruct (run_closed_stop _ s s5 Hcl Hfull) as (_ & Hz & Hq).
  split; [|lia]. intros H0. apply (Hz H0).
Qed.

Lemma stop_ends_the_loop_witness :
  exists s',
    run (after (fresh lease_secret 15000000000) [Go; Go; CallStop])
        [Go; Go; Reply (lease_reply true 3600); TimerFires; Go] = Some s' /\
    terminated (pc s') = true /\
    (checked (pc (after (fresh lease_secret 15000000000)
                        [Go; Go; CallStop])) = 0%nat ->
     calls s' = calls (after (fresh lease_secret 15000000000)
                             [Go; Go; CallStop])) /\
    (length (calls s')
     <= length (calls (after (fresh lease_secret 15000000000%Z)
                             [Go; Go; CallStop]))
        + checked (pc (after (fresh lease_secret 15000000000%Z)
                             [Go; Go; CallStop])))%nat.
Proof.
  apply (stop_ends_the_loop
           vault (RenewerInput.mk (Some lease_secret) 0)
           (fresh lease_secret 15000000000)
           [Go; Go; CallStop]).
  - reflexivity.
  - reflexivity.
  - simpl. right. right. left. reflexivity.
Defined.

(** ** Renewing again and again *)

(** One pass through the loop when nobody has stopped the renewer and
    the reply keeps it going. *)
Lemma one_round (secret : Secret.t) (s : State) (v : Variant)
      (res : CallResult) :
  wf s -> inv secret s ->
  pc s = AtCheck v ->
  Renewer.stopped (rn s) = false ->
  keeps_renewing v (Renewer.grace (rn s)) res ->
  exists s',
    run s [Go; Go; Reply res; TimerFires] = Some s' /\
    wf s' /\ inv secret s' /\ pc s' = AtCheck v /\
    Renewer.stopped (rn s') = false /\
    Renewer.grace (rn s') = Renewer.grace (rn s) /\
    length (calls s') = S (length (calls s)) /\
    length (ticks s') = S (length (ticks s)) /\
    length (buf (Renewer.tickCh (rn s'))) =
    Nat.min (S (length (buf (Renewer.tickCh (rn s))))) 5 /\
    dones s' = dones s.
Proof.
  intros Hwf Hinv Hpc Hst (Herr & L & Hrep & Hrange & Hgrace).
  (* the check finds stopCh open *)
  assert (H0 : step s Go = Some (mkState (rn s) (Checked v) (trace s))).
  { simpl. rewrite Hpc. unfold check_stop, chan_try_recv.
    rewrite (inv_stop_buf _ _ Hinv), (wf_stop_flag s Hwf), Hst.
    reflexivity. }
  set (s0 := mkState (rn s) (Checked v) (trace s)) in *.
  destruct (step_wf s Go Hwf) as (s0' & H0' & Hwf0).
  rewrite H0 in H0'. inversion H0'; subst s0'; clear H0'.
  pose proof (step_inv secret s s0 Go Hinv H0) as Hinv0.
  (* the call is issued *)
  assert (H1 : step s0 Go
               = Some (mkState (rn s) (InCall v) (trace s ++ [call_of v])))
    by reflexivity.
  set (s1 := mkState (rn s) (InCall v) (trace s ++ [call_of v])) in *.
  destruct (step_wf s0 Go Hwf0) as (s1' & H1' & Hwf1).
  rewrite H1 in H1'. inversion H1'; subst s1'; clear H1'.
  pose proof (step_inv secret s0 s1 Go Hinv0 H1) as Hinv1.
  (* the reply *)
  destruct (step_reply s1 v res Hwf1 eq_refl)
    as (s2 & H2 & Hwf2 & Hc2 & Hg2 & Hpc2 & _).
  rewrite Herr, Hrep, seconds_exact in Hpc2 by assumption.
  simpl in Hpc2.
  destruct (Z.leb_spec (L * 1000000000) (Renewer.grace (rn s))); [lia|].
  pose proof (step_inv secret s1 s2 _ Hinv1 H2) as Hinv2.
  assert (Hshape :
            ticks s2 = ticks s1
                       ++ [EvTick (length (buf (Renewer.tickCh (rn s))) <? 5)%nat]
            /\ length (buf (Renewer.tickCh (rn s2))) =
               Nat.min (S (length (buf (Renewer.tickCh (rn s))))) 5
            /\ Renewer.stopped (rn s2) = false
            /\ dones s2 = dones s1).
  { pose proof (inv_tick_cap _ _ Hinv) as Hcap.
    pose proof (inv_tick_len _ _ Hinv) as Hlen.
    simpl in H2.
    destruct (reply_of v (rn s) res) as [[[r' evs] k]|] eqn:Hr;
      [|discriminate].
    pose proof (reply_of_shape _ _ _ _ _ _ Hr) as Hsh.
    rewrite Herr, Hcap in Hsh. destruct Hsh as (Hevs & Hr').
    clear Hr. subst evs r'. unfold ticks, dones.
    destruct (length (buf (Renewer.tickCh (rn s))) <? 5)%nat eqn:Hlt;
      [apply Nat.ltb_lt in Hlt | apply Nat.ltb_ge in Hlt];
      destruct k; inversion H2; subst s2; simpl;
      rewrite ?filter_app, ?length_app; simpl; rewrite ?app_nil_r;
      repeat split; auto; lia. }
  destruct Hshape as (Ht2 & Hb2 & Hst2 & Hd2).
  (* the timer *)
  assert (H3 : step s2 TimerFires
               = Some (mkState (rn s2) (AtCheck v) (trace s2)))
    by (simpl; rewrite Hpc2; reflexivity).
  set (s3 := mkState (rn s2) (AtCheck v) (trace s2)) in *.
  destruct (step_wf s2 TimerFires Hwf2) as (s3' & H3' & Hwf3).
  rewrite H3 in H3'. inversion H3'; subst s3'; clear H3'.
  pose proof (step_inv secret s2 s3 _ Hinv2 H3) as Hinv3.
  exists s3. cbn [run]. rewrite H0, H1, H2, H3.
  split; [reflexivity|]. split; [assumption|]. split; [assumption|].
  split; [reflexivity|]. split; [assumption|]. split; [assumption|].
  assert (Hcs : calls s1 = calls s ++ [call_of v]).
  { unfold calls, s1; simpl. rewrite filter_app.
    destruct v; reflexivity. }
  assert (Hts : ticks s1 = ticks s).
  { unfold ticks, s1; simpl. rewrite filter_app.
    destruct v; simpl; apply app_nil_r. }
  assert (Hds : dones s1 = dones s).
  { unfold dones, s1; simpl. rewrite filter_app.
    destruct v; simpl; apply app_nil_r. }
  split; [|split; [|split]].
  - change (calls s3) with (calls s2). rewrite Hc2, Hcs, length_app.
    simpl. lia.
  - change (ticks s3) with (ticks s2). rewrite Ht2, Hts, length_app.
    simpl. lia.
  - exact Hb2.
  - change (dones s3) with (dones s2). congruence.
Qed.

Lemma rounds_from (secret : Secret.t) (v : Variant)
      (replies : list CallResult) :
  forall s,
    wf s -> inv secret s ->
    pc s = AtCheck v ->
    Renewer.stopped (rn s) = false ->
    Forall (keeps_renewing v (Renewer.grace (rn s))) replies ->
    exists s',
      run s (rounds_of replies) = Some s' /\
      pc s' = AtCheck v /\
      length (calls s') = (length (calls s) + length replies)%nat /\
      length (ticks s') = (length (ticks s) + length replies)%nat /\
      length (buf (Renewer.tickCh (rn s'))) =
      Nat.min (length (buf (Renewer.tickCh (rn s))) + length replies) 5 /\
      dones s' = dones s.
Proof.
  induction replies as [|res replies IH]; intros s Hwf Hinv Hpc Hst Hall.
  - exists s. simpl. pose proof (inv_tick_len _ _ Hinv).
    repeat split; auto; lia.
  - inversion Hall as [|? ? Hres Hrest]; subst.
    destruct (one_round secret s v res Hwf Hinv Hpc Hst Hres)
      as (s1 & Hrun1 & Hwf1 & Hinv1 & Hpc1 & Hst1 & Hg1 & Hc1 & Ht1 & Hb1
          & Hd1).
    rewrite <- Hg1 in Hrest.
    destruct (IH s1 Hwf1 Hinv1 Hpc1 Hst1 Hrest)
      as (s' & Hrun & Hpc' & Hc' & Ht' & Hb' & Hd').
    exists s'. split.
    + cbn [rounds_of]. cbn [run] in Hrun1 |- *.
      destruct (step s Go) as [a|]; [|discriminate].
      destruct (step a Go) as [a'|]; [|discriminate].
      destruct (step a' (Reply res)) as [b|]; [|discriminate].
      destruct (step b TimerFires) as [d|]; [|discriminate].
      inversion Hrun1; subst d. assumption.
    + split; [assumption|]. simpl length.
      split; [lia|]. split; [lia|]. split; [lia|]. congruence.
Qed.

Lemma NewRenewer_fresh (c : Client) (i : RenewerInput.t) (r : Renewer.t) :
  NewRenewer c (Some i) = (Some r, None) ->
  Renewer.stopped r = false /\ buf (Renewer.tickCh r) = [].
Proof.
  unfold NewRenewer. destruct (RenewerInput.Secret i); intros H;
    inversion H; subst r; split; reflexivity.
Qed.

(** X9: as long as nobody calls [Stop] and every reply is free of error,
    renewable, and reports a lease duration of L seconds, L between
    -9223372036 and 9223372036, whose nanoseconds are above the grace,
    the loop keeps renewing: for a credential that passes the entry test
    and any list of such replies, each followed by the timer, the
    goroutine stands at the top of the loop again, has issued one remote
    call and tried one tick per reply, holds min(n, 5) ticks in the
    buffer when nobody consumes them, and has not written to the done
    channel. *)
Theorem renews_while_above_grace
        (c : Client) (i : RenewerInput.t) (r : Renewer.t)
        (replies : list CallResult) :
  NewRenewer c (Some i) = (Some r, None) ->
  renewable_credential (Renewer.secret r) ->
  Forall (keeps_renewing (variant_of (Renewer.secret r)) (Renewer.grace r))
         replies ->
  exists s,
    run (start r) (Go :: rounds_of replies) = Some s /\
    pc s = AtCheck (variant_of (Renewer.secret r)) /\
    length (calls s) = length replies /\
    length (ticks s) = length replies /\
    length (buf (TickCh (rn s))) = Nat.min (length replies) 5 /\
    dones s = [].
Proof.
  intros Hnew Hok Hall.
  pose proof (Renew_enter_admitted r Hok) as Henter.
  pose proof (wf_start c i r Hnew) as Hwf0.
  pose proof (inv_start c i r Hnew) as Hinv0.
  assert (H0 : step (start r) Go
               = Some (mkState r (AtCheck (variant_of (Renewer.secret r)))
                               []))
    by (simpl; rewrite Henter; reflexivity).
  set (s0 := mkState r (AtCheck (variant_of (Renewer.secret r))) []) in *.
  destruct (step_wf (start r) Go Hwf0) as (s0' & H0' & Hwf).
  rewrite H0 in H0'. inversion H0'; subst s0'; clear H0'.
  pose proof (step_inv _ _ _ _ Hinv0 H0) as Hinv.
  destruct (NewRenewer_fresh c i r Hnew) as (Hst & Hb).
  destruct (rounds_from _ _ replies s0 Hwf Hinv eq_refl Hst Hall)
    as (s & Hrun & Hpc & Hc & Ht & Hbuf & Hd).
  exists s. cbn [run]. rewrite H0.
  subst s0. simpl in Hc, Ht, Hbuf, Hd. rewrite Hb in Hbuf.
  simpl in Hbuf.
  repeat split; assumption.
Qed.

Lemma renews_while_above_grace_witness :
  exists s,
    run (start (fresh token_secret 10000000000))
        (Go :: rounds_of [token_reply true 100; token_reply true 3600;
                          token_reply true 11; token_reply true 100;
                          token_reply true 100; token_reply true 60;
                          token_reply true 100]) = Some s /\
    pc s = AtCheck (variant_of
                      (Renewer.secret (fresh token_secret 10000000000))) /\
    length (calls s) = 7%nat /\
    length (ticks s) = 7%nat /\
    length (buf (TickCh (rn s))) = Nat.min 7 5 /\
    dones s = [].
Proof.
  apply (renews_while_above_grace
           vault (RenewerInput.mk (Some token_secret) 10000000000)
           (fresh token_secret 10000000000)
           [token_reply true 100; token_reply true 3600;
            token_reply true 11; token_reply true 100;
            token_reply true 100; token_reply true 60;
            token_reply true 100]).
  - reflexivity.
  - simpl. split; [reflexivity | discriminate].
  - repeat constructor;
      (eexists; split; [reflexivity|]; simpl; lia).
Defined.

(** ** Where an outcome comes from *)

Lemma step_keeps_stopped (s s' : State) (i : Input) :
  i <> CallStop ->
  step s i = Some s' ->
  Renewer.stopped (rn s') = Renewer.stopped (rn s).
Proof.
  intros Hne Hstep.
  destruct i; simpl in Hstep; try (exfalso; apply Hne; reflexivity).
  - destruct (chan_try_recv (Renewer.tickCh (rn s)));
      inversion Hstep; subst; auto.
  - destruct (chan_try_recv (Renewer.doneCh (rn s)));
      inversion Hstep; subst; auto.
  - destruct (pc s); try (inversion Hstep; subst; auto; fail).
    + inversion Hstep; subst. unfold check_stop.
      destruct (chan_try_recv (Renewer.stopCh (rn s))); auto.
    + unfold send_done in Hstep. cbv zeta in Hstep.
      destruct (closed (Renewer.doneCh (rn s))); [discriminate|].
      destruct (_ <? _)%nat; inversion Hstep; subst; auto.
  - destruct (pc s); try (inversion Hstep; subst; auto; fail).
    destruct (reply_of v (rn s) res) as [[[r' evs] k]|] eqn:Hr;
      [|discriminate].
    destruct (reply_of_events _ _ _ _ _ _ Hr)
      as (_ & _ & _ & _ & Hsd & _ & _).
    destruct k; inversion Hstep; subst; simpl; assumption.
  - destruct (pc s); inversion Hstep; subst; auto.
  - destruct (pc s); try (inversion Hstep; subst; auto; fail).
    destruct (chan_try_recv (Renewer.stopCh (rn s)));
      inversion Hstep; subst; auto.
Qed.

(** [stopped] is only ever set by a call of [Stop]. *)
Lemma stopped_needs_Stop (ins : list Input) :
  forall s s',
    run s ins = Some s' ->
    Renewer.stopped (rn s') = true ->
    Renewer.stopped (rn s) = true \/ In CallStop ins.
Proof.
  induction ins as [|i ins IH]; intros s s' Hrun Hst; simpl in Hrun.
  - inversion Hrun; subst. left. assumption.
  - destruct (step s i) as [s1|] eqn:Hstep; [|discriminate].
    destruct (IH s1 s' Hrun Hst) as [H1|Hin].
    + destruct i;
        try (left;
             rewrite <- (fun H => step_keeps_stopped s s1 _ H Hstep)
               by discriminate;
             assumption).
      right. left. reflexivity.
    + right. right. assumption.
Qed.

(** The only steps that make a helper return. *)
Lemma step_returns (secret : Secret.t) (s s' : State) (i : Input)
      (outcome : option error) :
  wf s -> inv secret s ->
  step s i = Some s' ->
  pc s' = Returned outcome ->
  pc s = Returned outcome \/
  outcome = Some ErrRenewerNotRenewable \/
  (outcome = None /\ Renewer.stopped (rn s) = true) \/
  exists res,
    i = Reply res /\
    verdict (variant_of secret) (Renewer.grace (rn s)) res outcome.
Proof.
  intros Hwf Hinv Hstep Hret.
  destruct i; simpl in Hstep.
  - destruct (Stop (rn s)) as [[r evs]|]; [|discriminate].
    inversion Hstep; subst s'. left. assumption.
  - destruct (chan_try_recv (Renewer.tickCh (rn s)));
      inversion Hstep; subst s'; left; assumption.
  - destruct (chan_try_recv (Renewer.doneCh (rn s)));
      inversion Hstep; subst s'; left; assumption.
  - destruct (pc s) eqn:Hpc;
      try (inversion Hstep; subst s'; simpl in Hret; congruence).
    + inversion Hstep; subst s'; simpl in Hret.
      destruct (Renew_enter_cases (rn s)) as [He|He];
        rewrite He in Hret; inversion Hret. right. left. reflexivity.
    + inversion Hstep; subst s'. unfold check_stop, chan_try_recv in Hret.
      rewrite (inv_stop_buf _ _ Hinv), (wf_stop_flag s Hwf) in Hret.
      destruct (Renewer.stopped (rn s)) eqn:Hst; simpl in Hret;
        inversion Hret. right. right. left. split; reflexivity.
    + unfold send_done in Hstep. cbv zeta in Hstep.
      destruct (closed (Renewer.doneCh (rn s))); [discriminate|].
      destruct (_ <? _)%nat; inversion Hstep; subst s'; simpl in Hret;
        [discriminate | left; congruence].
  - destruct (pc s) eqn:Hpc;
      try (inversion Hstep; subst s'; left; congruence).
    right. right. right. exists res. split; [reflexivity|].
    assert (Hv : v = variant_of secret)
      by (apply (inv_variant _ _ Hinv); rewrite Hpc; reflexivity).
    subst v.
    destruct (step_reply s _ res Hwf Hpc)
      as (s2 & H2 & _ & _ & _ & Hpc2 & _).
    simpl in H2. rewrite Hpc in H2. rewrite Hstep in H2.
    inversion H2; subst s2; clear H2.
    rewrite Hret in Hpc2. unfold verdict.
    destruct (err res) as [e|]; [congruence|].
    destruct (reported (variant_of secret) res) as [[[|] L]|];
      try congruence.
    destruct (Z.leb_spec (time.mul (time.of_int L) time.Second)
                         (Renewer.grace (rn s)));
      [split; [congruence | assumption] | discriminate].
  - destruct (pc s) eqn:Hpc;
      inversion Hstep; subst s'; simpl in Hret; try discriminate;
      left; congruence.
  - destruct (pc s) eqn:Hpc;
      try (inversion Hstep; subst s'; left; congruence).
    unfold chan_try_recv in Hstep.
    rewrite (inv_stop_buf _ _ Hinv), (wf_stop_flag s Hwf) in Hstep.
    destruct (Renewer.stopped (rn s)) eqn:Hst;
      inversion Hstep; subst s'; simpl in Hret.
    + inversion Hret. right. right. left. split; reflexivity.
    + congruence.
Qed.

Lemma returned_origin (c : Client) (i : RenewerInput.t) (r : Renewer.t)
      (ins : list Input) :
  NewRenewer c (Some i) = (Some r, None) ->
  forall s outcome,
    run (start r) ins = Some s ->
    pc s = Returned outcome ->
    outcome = Some ErrRenewerNotRenewable \/
    (outcome = None /\ In CallStop ins) \/
    exists res,
      In (Reply res) ins /\
      verdict (variant_of (Renewer.secret r)) (Renewer.grace r) res outcome.
Proof.
  intros Hnew.
  induction ins as [|j ins IH] using rev_ind; intros s outcome Hrun Hret.
  - simpl in Hrun. inversion Hrun; subst s. discriminate.
  - rewrite run_snoc in Hrun.
    destruct (run (start r) ins) as [s0|] eqn:Hrun0; [|discriminate].
    pose proof (execution_wf c i r ins s0 Hnew Hrun0) as Hwf.
    pose proof (execution_inv c i r ins s0 Hnew Hrun0) as Hinv.
    pose proof (run_grace ins _ _ Hrun0) as Hg. simpl in Hg.
    destruct (step_returns _ s0 s j outcome Hwf Hinv Hrun Hret)
      as [Hprev|[Hnr|[(Hnil & Hst)|(res & Hj & Hver)]]].
    + destruct (IH s0 outcome eq_refl Hprev)
        as [H|[(H & Hin)|(res & Hin & Hver)]].
      * left. assumption.
      * right. left. split; [assumption|].
        apply in_or_app. left. assumption.
      * right. right. exists res. split; [|assumption].
        apply in_or_app. left. assumption.
    + left. assumption.
    + right. left. split; [assumption|].
      apply in_or_app. left.
      destruct (stopped_needs_Stop ins (start r) s0 Hrun0 Hst) as [H|H];
        [|assumption].
      destruct (NewRenewer_fresh c i r Hnew) as (Hf & _).
      simpl in H. congruence.
    + right. right. exists res. split.
      * apply in_or_app. right. left. assumption.
      * rewrite <- Hg. assumption.
Qed.

(** X10: a helper never returns an error of its own making other than
    [ErrRenewerNotRenewable] and [ErrRenewerNoSecretData]: any other
    error it returns is one that a remote call of the same execution
    returned. *)
Theorem error_outcome_origin
        (c : Client) (i : RenewerInput.t) (r : Renewer.t)
        (ins : list Input) (s : State) (e : error) :
  NewRenewer c (Some i) = (Some r, None) ->
  run (start r) ins = Some s ->
  pc s = Returned (Some e) ->
  e = ErrRenewerNotRenewable \/
  e = ErrRenewerNoSecretData \/
  exists res, In (Reply res) ins /\ err res = Some e.
Proof.
  intros Hnew Hrun Hret.
  destruct (returned_origin c i r ins Hnew s _ Hrun Hret)
    as [H|[(H & _)|(res & Hin & Hver)]].
  - inversion H. left. reflexivity.
  - discriminate.
  - unfold verdict in Hver.
    destruct (err res) as [e'|] eqn:Herr.
    + inversion Hver; subst e'. right. right. exists res. split; assumption.
    + destruct (reported _ res) as [[[|] L]|].
      * destruct Hver as (H & _). discriminate.
      * inversion Hver. left. reflexivity.
      * inversion Hver. right. left. reflexivity.
Qed.

Lemma error_outcome_origin_witness :
  ErrRemote "permission denied" = ErrRenewerNotRenewable \/
  ErrRemote "permission denied" = ErrRenewerNoSecretData \/
  exists res,
    In (Reply res)
       [Go; Go; Go; Reply (token_reply true 3600); TimerFires; Go; Go;
        Reply (mkCallResult None (Some (ErrRemote "permission denied")))] /\
    err res = Some (ErrRemote "permission denied").
Proof.
  apply (error_outcome_origin
           vault (RenewerInput.mk (Some token_secret) 0)
           (fresh token_secret 15000000000)
           [Go; Go; Go; Reply (token_reply true 3600); TimerFires; Go; Go;
            Reply (mkCallResult None (Some (ErrRemote "permission denied")))]
           (after (fresh token_secret 15000000000)
              [Go; Go; Go; Reply (token_reply true 3600); TimerFires; Go; Go;
               Reply (mkCallResult None
                        (Some (ErrRemote "permission denied")))])).
  - reflexivity.
  - reflexivity.
  - reflexivity.
Defined.

(** X11: a helper returns nil only for one of two reasons: [Stop] was
    called during the execution, or a remote call of the execution
    returned, without error, a renewable reply whose lease duration,
    converted to nanoseconds in 64 bits, was at most the grace. *)
Theorem nil_outcome_origin
        (c : Client) (i : RenewerInput.t) (r : Renewer.t)
        (ins : list Input) (s : State) :
  NewRenewer c (Some i) = (Some r, None) ->
  run (start r) ins = Some s ->
  pc s = Returned None ->
  In CallStop ins \/
  exists res L,
    In (Reply res) ins /\
    err res = None /\
    reported (variant_of (Renewer.secret r)) res = Some (true, L) /\
    time.mul (time.of_int L) time.Second <= Renewer.grace r.
Proof.
  intros Hnew Hrun Hret.
  destruct (returned_origin c i r ins Hnew s _ Hrun Hret)
    as [H|[(_ & Hin)|(res & Hin & Hver)]].
  - discriminate.
  - left. assumption.
  - unfold verdict in Hver.
    destruct (err res) as [e'|] eqn:Herr; [discriminate|].
    destruct (reported _ res) as [[[|] L]|] eqn:Hrep; try discriminate.
    destruct Hver as (_ & Hle).
    right. exists res, L. repeat split; assumption.
Qed.

Lemma nil_outcome_origin_witness :
  In CallStop [Go; Go; Go; Reply (lease_reply true 3600); CallStop;
               StopObserved] \/
  exists res L,
    In (Reply res) [Go; Go; Go; Reply (lease_reply true 3600); CallStop;
                    StopObserved] /\
    err res = None /\
    reported (variant_of (Renewer.secret (fresh lease_secret 15000000000)))
             res = Some (true, L) /\
    time.mul (time.of_int L) time.Second
    <= Renewer.grace (fresh lease_secret 15000000000).
Proof.
  apply (nil_outcome_origin
           vault (RenewerInput.mk (Some lease_secret) 0)
           (fresh lease_secret 15000000000)
           [Go; Go; Go; Reply (lease_reply true 3600); CallStop; StopObserved]
           (after (fresh lease_secret 15000000000)
                  [Go; Go; Go; Reply (lease_reply true 3600); CallStop;
                   StopObserved])).
  - reflexivity.
  - reflexivity.
  - reflexivity.
Defined.

(** ** The final select *)

(** X12: a renewable reply whose lease duration L (seconds, within the
    range that fits 64-bit nanoseconds) is above the grace does not end
    the loop: after its tick the goroutine waits in the final [select],
    no new remote call has been issued yet, and the argument d it gave
    to [time.After] is, for L up to 18 s, the half lease duration in
    nanoseconds times [time.Second], and for no positive L the half
    lease duration itself. *)
Theorem above_grace_waits
        (c : Client) (i : RenewerInput.t) (r : Renewer.t)
        (ins : list Input) (s : State) (v : Variant)
        (res : CallResult) (L : Z) :
  NewRenewer c (Some i) = (Some r, None) ->
  run (start r) ins = Some s ->
  pc s = InCall v ->
  err res = None ->
  reported v res = Some (true, L) ->
  -9223372036 <= L <= 9223372036 ->
  Renewer.grace r < L * 1000000000 ->
  exists s' d,
    step s (Reply res) = Some s' /\
    pc s' = AtSelect v d /\
    trace s' =
    trace s ++ [EvTick (length (buf (TickCh (rn s))) <? 5)%nat; EvAfter d] /\
    (0 <= L <= 18 -> d = L * 1000000000 / 2 * 1000000000) /\
    (0 < L -> d <> L * 1000000000 / 2).
Proof.
  intros Hnew Hrun Hpc Herr Hrep Hrange Hgrace.
  pose proof (execution_wf c i r ins s Hnew Hrun) as Hwf.
  pose proof (inv_tick_cap _ _ (execution_inv c i r ins s Hnew Hrun))
    as Hcap.
  pose proof (run_grace ins _ _ Hrun) as Hg. simpl in Hg.
  destruct (step_reply s v res Hwf Hpc)
    as (s' & Hstep & _ & _ & _ & Hpc' & _).
  rewrite Herr, Hrep, seconds_exact, Hg in Hpc' by assumption.
  destruct (Z.leb_spec (L * 1000000000) (Renewer.grace r)); [lia|].
  exists s', (sleep_of L). split; [assumption|]. split; [assumption|].
  split; [|split].
  - simpl in Hstep. rewrite Hpc in Hstep.
    destruct (reply_of v (rn s) res) as [[[r' evs] k]|] eqn:Hr;
      [|discriminate].
    pose proof (reply_of_shape _ _ _ _ _ _ Hr) as Hsh.
    rewrite Herr, Hcap in Hsh. destruct Hsh as (Hevs & _). subst evs.
    destruct k; inversion Hstep; subst s'; simpl in Hpc';
      inversion Hpc'; subst. reflexivity.
  - intros H18. apply sleep_of_small. assumption.
  - intros Hpos. apply sleep_never_half. lia.
Qed.

Lemma above_grace_waits_witness :
  exists s' d,
    step (calling lease_secret 1000000000 (VLease "lease/7"))
         (Reply (lease_reply true 2)) = Some s' /\
    pc s' = AtSelect (VLease "lease/7") d /\
    trace s' =
    trace (calling lease_secret 1000000000 (VLease "lease/7"))
    ++ [EvTick (length (buf (TickCh (rn
          (calling lease_secret 1000000000%Z (VLease "lease/7")))))
        <? 5)%nat; EvAfter d] /\
    (0 <= 2 <= 18 -> d = 2 * 1000000000 / 2 * 1000000000) /\
    (0 < 2 -> d <> 2 * 1000000000 / 2).
Proof.
  apply (above_grace_waits
           vault (RenewerInput.mk (Some lease_secret) 1000000000)
           (fresh lease_secret 1000000000) [Go; Go; Go]
           (calling lease_secret 1000000000 (VLease "lease/7"))
           (VLease "lease/7") (lease_reply true 2) 2).
  - reflexivity.
  - reflexivity.
  - reflexivity.
  - reflexivity.
  - reflexivity.
  - lia.
  - simpl. lia.
Defined.
